(** * A verified model of the HTM translation cache (htm/tlb.c)

    The C file keeps one process-wide [struct tlb_cache] and the verbosity
    flag [tlb_debug].  Every function of the file is embedded below as a
    function of a small state-and-abort monad over that memory:

    - [uint64_t] values are integers in [Z]; each operation that can leave
      the range [0, 2^64) is followed by [wrap64];
    - [int] values are integers in [Z]; [x++] on an [int] is [int_incr],
      the two's-complement increment;
    - [assert (c)] aborts the process: the outcome [Abort] keeps the memory
      as it was when the assertion failed;
    - an access outside [tlb.tlb[0 .. TLB_SIZE-1]] is [Undef];
    - [printf] appends an event to the [stdout] component; the text
      formatting of [tlb_print] and the report of [tlb_dump] are not
      modelled. *)

From Stdlib Require Import ZArith Lia Bool List.
From stdpp Require Import base list.

Local Open Scope Z_scope.

(** ** Machine integers *)

Definition wrap64 (x : Z) : Z := x mod 2 ^ 64.

(** [~x] on a [uint64_t]. *)
Definition not64 (x : Z) : Z := wrap64 (Z.lnot x).

Definition INT_MAX : Z := 2147483647.
Definition INT_MIN : Z := -2147483648.

Definition wrap_int (x : Z) : Z := (x + 2 ^ 31) mod 2 ^ 32 - 2 ^ 31.

(** [x++] on an [int]. *)
Definition int_incr (x : Z) : Z := wrap_int (x + 1).

(** [x++] on a [uint64_t]. *)
Definition u64_incr (x : Z) : Z := wrap64 (x + 1).

Definition is_u64 (x : Z) : Prop := 0 <= x < 2 ^ 64.

(** ** Data model *)

Definition TLB_SIZE : Z := 256.

(** [struct tlbe].  The projections live in a module so that [tlbe.ea t]
    reads like [t->ea] and does not clash with the parameters [ea], [ra]
    and [flags] of the functions. *)
Module tlbe.
Record t : Type := mk {
  ea : Z;
  ra : Z;
  size : Z;
  flags : Z;
  hit_count : Z;
  miss_count : Z;
  valid : bool
}.

Definition set_ea (x : t) (v : Z) : t :=
  mk v (ra x) (size x) (flags x) (hit_count x) (miss_count x) (valid x).
Definition set_ra (x : t) (v : Z) : t :=
  mk (ea x) v (size x) (flags x) (hit_count x) (miss_count x) (valid x).
Definition set_size (x : t) (v : Z) : t :=
  mk (ea x) (ra x) v (flags x) (hit_count x) (miss_count x) (valid x).
Definition set_flags (x : t) (v : Z) : t :=
  mk (ea x) (ra x) (size x) v (hit_count x) (miss_count x) (valid x).
Definition set_hit_count (x : t) (v : Z) : t :=
  mk (ea x) (ra x) (size x) (flags x) v (miss_count x) (valid x).
Definition set_miss_count (x : t) (v : Z) : t :=
  mk (ea x) (ra x) (size x) (flags x) (hit_count x) v (valid x).
Definition set_valid (x : t) (v : bool) : t :=
  mk (ea x) (ra x) (size x) (flags x) (hit_count x) (miss_count x) v.

(** An entry whose bytes are all zero. *)
Definition zero : t := mk 0 0 0 0 0 0 false.
End tlbe.

(** [struct tlb_cache]. *)
Record tlb_cache : Type := mk_cache {
  tlb : list tlbe.t;
  next : Z;
  translations : Z;
  no_translation : Z;
  translation_changes : Z
}.

(** What [tlb_match] prints when [tlb_debug > 0]: the probed address, the
    flags and the entry handed to [tlb_print]. *)
Inductive event : Type :=
| EvMatch (ea flags : Z) (t : tlbe.t).

(** The memory of the process: the global [tlb], the global [tlb_debug]
    and what has been written to standard output. *)
Record world : Type := mk_world {
  cache : tlb_cache;
  tlb_debug : Z;
  stdout : list event
}.

Definition with_cache (s : world) (c : tlb_cache) : world :=
  mk_world c (tlb_debug s) (stdout s).
Definition with_tlb (c : tlb_cache) (l : list tlbe.t) : tlb_cache :=
  mk_cache l (next c) (translations c) (no_translation c) (translation_changes c).
Definition with_next (c : tlb_cache) (v : Z) : tlb_cache :=
  mk_cache (tlb c) v (translations c) (no_translation c) (translation_changes c).
Definition with_translations (c : tlb_cache) (v : Z) : tlb_cache :=
  mk_cache (tlb c) (next c) v (no_translation c) (translation_changes c).
Definition with_no_translation (c : tlb_cache) (v : Z) : tlb_cache :=
  mk_cache (tlb c) (next c) (translations c) v (translation_changes c).
Definition with_translation_changes (c : tlb_cache) (v : Z) : tlb_cache :=
  mk_cache (tlb c) (next c) (translations c) (no_translation c) v.

(** [memset (&tlb, 0, sizeof (tlb))]. *)
Definition zero_cache : tlb_cache :=
  mk_cache (replicate (Z.to_nat TLB_SIZE) tlbe.zero) 0 0 0 0.

(** The memory at program start: objects of static storage duration are
    zero, [tlb_debug] is initialised to 0, nothing has been printed. *)
Definition startup : world := mk_world zero_cache 0 [].

(** ** The monad *)

Inductive outcome (A : Type) : Type :=
| Ret (a : A) (s : world)
| Abort (s : world)
| Undef.
Arguments Ret {A} a s.
Arguments Abort {A} s.
Arguments Undef {A}.

Definition M (A : Type) : Type := world -> outcome A.

Definition ret {A} (a : A) : M A := fun s => Ret a s.

Definition bind {A B} (m : M A) (f : A -> M B) : M B :=
  fun s =>
    match m s with
    | Ret a s' => f a s'
    | Abort s' => Abort s'
    | Undef => Undef
    end.

Declare Scope tlb_scope.
Delimit Scope tlb_scope with tlb.
Notation "x <- m ;; k" := (bind m (fun x => k))
  (at level 100, m at next level, right associativity) : tlb_scope.
Notation "m ;; k" := (bind m (fun _ => k))
  (at level 100, right associativity) : tlb_scope.
Open Scope tlb_scope.

(** [assert (c)]. *)
Definition assert (c : bool) : M unit :=
  fun s => if c then Ret tt s else Abort s.

Definition get_cache : M tlb_cache := fun s => Ret (cache s) s.
Definition put_cache (c : tlb_cache) : M unit := fun s => Ret tt (with_cache s c).
Definition get_debug : M Z := fun s => Ret (tlb_debug s) s.
Definition put_debug (v : Z) : M unit :=
  fun s => Ret tt (mk_world (cache s) v (stdout s)).
Definition print (e : event) : M unit :=
  fun s => Ret tt (mk_world (cache s) (tlb_debug s) (stdout s ++ [e])).

(** Read [tlb.tlb[i]]. *)
Definition load (i : Z) : M tlbe.t :=
  fun s =>
    if (0 <=? i) && (i <? TLB_SIZE) then
      match tlb (cache s) !! Z.to_nat i with
      | Some t => Ret t s
      | None => Undef
      end
    else Undef.

(** Write [tlb.tlb[i]]. *)
Definition store (i : Z) (t : tlbe.t) : M unit :=
  fun s =>
    if (0 <=? i) && (i <? TLB_SIZE) && (Z.to_nat i <? length (tlb (cache s)))%nat then
      Ret tt (with_cache s (with_tlb (cache s) (<[Z.to_nat i := t]> (tlb (cache s)))))
    else Undef.

(** A pointer argument as the functions look at it: [NULL], or the address
    of an object of the caller. *)
Inductive pointer : Type :=
| NULL
| Obj.

(** [p] in a condition: [p != NULL]. *)
Definition non_null (p : pointer) : bool :=
  match p with
  | NULL => false
  | Obj => true
  end.

(** ** The functions of tlb.c *)

Section Tlb.

(** [TLB_FLAGS_RELOC] is declared in tlb.h, which is not part of the
    sources: the constant is a parameter of the development. *)
Variable TLB_FLAGS_RELOC : Z.

Definition TLB_FLAGS_AVALIABLE : Z := TLB_FLAGS_RELOC.

Definition tlb_mask_offset (t : tlbe.t) : Z := wrap64 (tlbe.size t - 1).

Definition tlb_mask_rpn (t : tlbe.t) : Z := not64 (tlb_mask_offset t).

Definition tlb_pagesize_validate (size : Z) : M unit :=
  assert ((size =? 4096) || (size =? 65536) || (size =? 16777216)).

Definition tlb_flags_validate (flags : Z) : M unit :=
  assert (Z.land flags (not64 TLB_FLAGS_AVALIABLE) =? 0).

Definition tlb_equal (t1 t2 : tlbe.t) : bool :=
  if negb (tlbe.ea t1 =? tlbe.ea t2) then false
  else if negb (tlbe.ra t1 =? tlbe.ra t2) then false
  else if negb (tlbe.size t1 =? tlbe.size t2) then false
  else if negb (tlbe.flags t1 =? tlbe.flags t2) then false
  else if negb (eqb (tlbe.valid t1) (tlbe.valid t2)) then false
  else true.

Definition tlb_entry_validate (t : tlbe.t) : M unit :=
  assert (tlbe.valid t);;
  tlb_pagesize_validate (tlbe.size t);;
  tlb_flags_validate (tlbe.flags t);;
  let mask := tlb_mask_offset t in
  assert (Z.land (tlbe.ea t) mask =? 0);;
  assert (Z.land (tlbe.ra t) mask =? 0).

(** [t] points into the array; the function only reads through it, so the
    model takes the entry read at the call. *)
Definition tlb_match (ea flags : Z) (t : tlbe.t) : M bool :=
  tlb_entry_validate t;;
  debug <- get_debug;;
  (if debug >? 0 then print (EvMatch ea flags t) else ret tt);;
  if ea <? tlbe.ea t then ret false
  else if ea >=? wrap64 (tlbe.ea t + tlbe.size t) then ret false
  else if negb (flags =? tlbe.flags t) then ret false
  else ret true.

(** The loop of [__tlb_get_index]: [n] iterations are left and the loop
    variable is [i].  [tlb.next] is not assigned in the body, so the number
    of iterations is fixed when the loop is entered. *)
Fixpoint tlb_get_index_loop (n : nat) (ea flags i : Z) : M Z :=
  match n with
  | O => ret (-1)
  | S n' =>
      t <- load i;;
      m <- tlb_match ea flags t;;
      if m then
        tlb_entry_validate t;;
        store i (tlbe.set_hit_count t (u64_incr (tlbe.hit_count t)));;
        ret i
      else tlb_get_index_loop n' ea flags (i + 1)
  end.

Definition __tlb_get_index (ea flags start : Z) : M Z :=
  c <- get_cache;;
  tlb_get_index_loop (Z.to_nat (next c - start)) ea flags start.

Definition tlb_get_index (ea flags : Z) : M Z :=
  __tlb_get_index ea flags 0.

(** The first loop of [tlb_validate] ("Check for overlaps"). *)
Fixpoint tlb_validate_overlaps (n : nat) (i : Z) : M unit :=
  match n with
  | O => ret tt
  | S n' =>
      t <- load i;;
      r <- __tlb_get_index (tlbe.ea t) (tlbe.flags t) (i + 1);;
      assert (r =? -1);;
      t <- load i;;
      r <- __tlb_get_index (wrap64 (wrap64 (tlbe.ea t + tlbe.size t) - 1))
             (tlbe.flags t) (i + 1);;
      assert (r =? -1);;
      tlb_validate_overlaps n' (i + 1)
  end.

(** The second loop of [tlb_validate] ("Check for holes"). *)
Fixpoint tlb_validate_holes (n : nat) (i : Z) (valid_last : bool) : M unit :=
  match n with
  | O => ret tt
  | S n' =>
      t <- load i;;
      assert (negb (tlbe.valid t) || valid_last);;
      tlb_validate_holes n' (i + 1) (tlbe.valid t)
  end.

Definition tlb_validate : M unit :=
  c <- get_cache;;
  assert (next c <=? TLB_SIZE);;
  tlb_validate_overlaps (Z.to_nat (next c)) 0;;
  tlb_validate_holes (Z.to_nat TLB_SIZE) 0 true.

Definition tlb_translate (ea flags : Z) (t : tlbe.t) : M Z :=
  assert (ea >=? tlbe.ea t);;
  assert (ea <? wrap64 (tlbe.ea t + tlbe.size t));;
  tlb_flags_validate flags;;
  tlb_entry_validate t;;
  let ra := Z.land ea (tlb_mask_offset t) in
  let ra := Z.lor ra (Z.land (tlbe.ra t) (tlb_mask_rpn t)) in
  ret ra.

Definition tlb_init : M unit :=
  put_cache zero_cache;;
  tlb_validate.

Definition tlb_exit : M unit :=
  tlb_validate.

(** [ra] and [pagesize] are the two out-pointers: [assert (ra)] and
    [assert (pagesize)] abort on a null pointer.  The two results the C
    function writes through them are returned: [None] is [false],
    [Some (r, size)] is [true] with [*ra = r] and [*pagesize = size]. *)
Definition tlb_ra_get (ea flags : Z) (ra pagesize : pointer) : M (option (Z * Z)) :=
  assert (non_null ra);;
  assert (non_null pagesize);;
  c <- get_cache;;
  put_cache (with_translations c (int_incr (translations c)));;
  index <- tlb_get_index ea flags;;
  if index <? 0 then
    c <- get_cache;;
    put_cache (with_no_translation c (int_incr (no_translation c)));;
    ret None
  else
    t <- load index;;
    r <- tlb_translate ea flags t;;
    ret (Some (r, tlbe.size t)).

(** [tnew] is an automatic variable without initialiser: [tnew0] is what
    its storage holds when the function is entered.  The function assigns
    [size], [ea], [ra], [flags] and [valid] and no other member. *)
Definition tlb_ra_set (ea flags ra pagesize : Z) (tnew0 : tlbe.t) : M unit :=
  tlb_pagesize_validate pagesize;;
  tlb_flags_validate flags;;
  index <- tlb_get_index ea flags;;
  index <- (if index <? 0 then
              c <- get_cache;;
              let index := next c in
              put_cache (with_next c (int_incr (next c)));;
              c <- get_cache;;
              assert (next c <=? TLB_SIZE);;
              ret index
            else ret index);;
  put_debug 0;;
  t <- load index;;
  let tnew := tlbe.set_size tnew0 pagesize in
  let tnew := tlbe.set_ea tnew (Z.land ea (tlb_mask_rpn tnew)) in
  let tnew := tlbe.set_ra tnew (Z.land ra (tlb_mask_rpn tnew)) in
  let tnew := tlbe.set_flags tnew flags in
  let tnew := tlbe.set_valid tnew true in
  if tlb_equal tnew t then
    store index (tlbe.set_miss_count t (u64_incr (tlbe.miss_count t)))
  else
    (if tlbe.valid t then
       c <- get_cache;;
       put_cache (with_translation_changes c (int_incr (translation_changes c)))
     else ret tt);;
    store index tnew;;
    tlb_validate.


(** ** Calls of the public interface *)

(** One step of the surrounding test driver: a call of one of the functions
    tlb.h exports, or an assignment to the exported [tlb_debug].  A call of
    [tlb_ra_set] comes with the contents of the storage of [tnew]. *)
Inductive call : Type :=
| CallInit
| CallExit
| CallGet (ea flags : Z) (ra pagesize : pointer)
| CallSet (ea flags ra pagesize : Z) (tnew0 : tlbe.t)
| CallDebug (v : Z).

Definition exec (c : call) : M unit :=
  match c with
  | CallInit => tlb_init
  | CallExit => tlb_exit
  | CallGet ea flags ra pagesize => tlb_ra_get ea flags ra pagesize;; ret tt
  | CallSet ea flags ra pagesize tnew0 => tlb_ra_set ea flags ra pagesize tnew0
  | CallDebug v => put_debug v
  end.

Fixpoint run (cs : list call) : M unit :=
  match cs with
  | [] => ret tt
  | c :: cs' => exec c;; run cs'
  end.

(** The memories the process can be in between two calls: every call so
    far has returned. *)
Inductive reachable : world -> Prop :=
| reachable_startup : reachable startup
| reachable_step s c s' :
    reachable s -> exec c s = Ret tt s' -> reachable s'.

(** ** Predicates on entries and on the cache *)

(** The five assertions of [tlb_entry_validate], as one boolean. *)
Definition entry_checks (t : tlbe.t) : bool :=
  tlbe.valid t
  && ((tlbe.size t =? 4096) || (tlbe.size t =? 65536) || (tlbe.size t =? 16777216))
  && (Z.land (tlbe.flags t) (not64 TLB_FLAGS_AVALIABLE) =? 0)
  && (Z.land (tlbe.ea t) (tlb_mask_offset t) =? 0)
  && (Z.land (tlbe.ra t) (tlb_mask_offset t) =? 0).

(** The three comparisons of [tlb_match], as one boolean. *)
Definition matches (ea flags : Z) (t : tlbe.t) : bool :=
  negb (ea <? tlbe.ea t)
  && negb (ea >=? wrap64 (tlbe.ea t + tlbe.size t))
  && (flags =? tlbe.flags t).

(** What [tlb_match] leaves in memory: a line on standard output when
    [tlb_debug] is positive. *)
Definition traced (ea flags : Z) (t : tlbe.t) (s : world) : world :=
  if tlb_debug s >? 0
  then mk_world (cache s) (tlb_debug s) (stdout s ++ [EvMatch ea flags t])
  else s.

Definition pagesize_ok (size : Z) : Prop :=
  size = 4096 \/ size = 65536 \/ size = 16777216.

Definition flags_ok (flags : Z) : Prop :=
  Z.land flags (not64 TLB_FLAGS_AVALIABLE) = 0.

(** [x] has its low [size - 1] bits clear. *)
Definition aligned (x size : Z) : Prop := Z.land x (size - 1) = 0.

(** An entry that passes the entry check. *)
Definition entry_ok (t : tlbe.t) : Prop :=
  tlbe.valid t = true /\ pagesize_ok (tlbe.size t) /\ flags_ok (tlbe.flags t)
  /\ aligned (tlbe.ea t) (tlbe.size t) /\ aligned (tlbe.ra t) (tlbe.size t).

(** [a] lies in the page of [t], as a set of integers. *)
Definition in_page (a : Z) (t : tlbe.t) : Prop :=
  tlbe.ea t <= a < tlbe.ea t + tlbe.size t.

(** The pages of [t1] and [t2] have an address in common. *)
Definition overlap (t1 t2 : tlbe.t) : Prop :=
  tlbe.ea t1 < tlbe.ea t2 + tlbe.size t2 /\ tlbe.ea t2 < tlbe.ea t1 + tlbe.size t1.

(** The candidate entry [tlb_ra_set] builds in [tnew]. *)
Definition candidate (ea flags ra pagesize : Z) (tnew0 : tlbe.t) : tlbe.t :=
  tlbe.mk (Z.land ea (not64 (wrap64 (pagesize - 1))))
          (Z.land ra (not64 (wrap64 (pagesize - 1))))
          pagesize flags (tlbe.hit_count tnew0) (tlbe.miss_count tnew0) true.

(** The invariant of the cache between two calls. *)
Record cache_inv (c : tlb_cache) : Prop := {
  inv_length : length (tlb c) = Z.to_nat TLB_SIZE;
  inv_next : 0 <= next c <= TLB_SIZE;
  inv_used : forall (i : nat) (t : tlbe.t),
      tlb c !! i = Some t -> Z.of_nat i < next c ->
      entry_checks t = true /\ is_u64 (tlbe.ea t) /\ is_u64 (tlbe.ra t);
  inv_free : forall (i : nat) (t : tlbe.t),
      tlb c !! i = Some t -> next c <= Z.of_nat i -> tlbe.valid t = false
}.

(** ** Machine arithmetic *)

Lemma wrap64_range x : 0 <= wrap64 x < 2 ^ 64.
Proof. unfold wrap64. apply Z.mod_pos_bound. lia. Qed.

Lemma wrap64_small x : 0 <= x < 2 ^ 64 -> wrap64 x = x.
Proof. intros H. unfold wrap64. apply Z.mod_small. exact H. Qed.

Lemma wrap64_le x : 0 <= x -> wrap64 x <= x.
Proof. intros H. unfold wrap64. apply Z.mod_le; lia. Qed.

Lemma not64_range x : 0 <= not64 x < 2 ^ 64.
Proof. apply wrap64_range. Qed.

Lemma int_incr_succ x : INT_MIN <= x < INT_MAX -> int_incr x = x + 1.
Proof.
  unfold INT_MIN, INT_MAX, int_incr, wrap_int. intros H.
  rewrite Z.mod_small; lia.
Qed.

Lemma u64_incr_succ x : 0 <= x < 2 ^ 64 - 1 -> u64_incr x = x + 1.
Proof. intros H. unfold u64_incr. apply wrap64_small. lia. Qed.

Lemma land_u64_range x m : 0 <= m < 2 ^ 64 -> is_u64 (Z.land x m).
Proof.
  intros Hm. unfold is_u64.
  assert (E : Z.land x m = Z.land x m mod 2 ^ 64).
  { rewrite <- Z.land_ones by lia. rewrite <- Z.land_assoc.
    rewrite (Z.land_ones m) by lia. rewrite (Z.mod_small m) by lia. reflexivity. }
  rewrite E. apply Z.mod_pos_bound. lia.
Qed.

(** Bit [i] of a 64-bit complement. *)
Lemma not64_testbit x i :
  0 <= i -> Z.testbit (not64 x) i = (i <? 64) && negb (Z.testbit x i).
Proof.
  intros Hi. unfold not64, wrap64.
  destruct (Z.ltb_spec i 64).
  - rewrite Z.mod_pow2_bits_low by lia. rewrite Z.lnot_spec by lia. reflexivity.
  - rewrite Z.mod_pow2_bits_high by lia. reflexivity.
Qed.

(** Masking with the complement of [m] clears the bits of [m]. *)
Lemma land_not64_clear x m : Z.land (Z.land x (not64 m)) m = 0.
Proof.
  apply Z.bits_inj'. intros i Hi.
  rewrite !Z.land_spec, not64_testbit, Z.bits_0 by lia.
  destruct (Z.testbit m i), (Z.testbit x i), (i <? 64); reflexivity.
Qed.

(** ** Reasoning about the monad *)

Lemma bind_Ret {A B} (m : M A) (f : A -> M B) s a s' :
  m s = Ret a s' -> bind m f s = f a s'.
Proof. intros H. unfold bind. rewrite H. reflexivity. Qed.

Lemma bind_Abort {A B} (m : M A) (f : A -> M B) s s' :
  m s = Abort s' -> bind m f s = Abort s'.
Proof. intros H. unfold bind. rewrite H. reflexivity. Qed.

Lemma bind_Ret_inv {A B} (m : M A) (f : A -> M B) s b s2 :
  bind m f s = Ret b s2 -> exists a s1, m s = Ret a s1 /\ f a s1 = Ret b s2.
Proof.
  unfold bind. destruct (m s) as [a s1| |]; intros H; try discriminate.
  exists a, s1. split; [reflexivity|exact H].
Qed.

Lemma assert_Ret_inv c s u s' : assert c s = Ret u s' -> c = true /\ s' = s.
Proof. unfold assert. destruct c; intros H; inversion H; auto. Qed.

Lemma load_Ret_inv i s t s' :
  load i s = Ret t s' ->
  s' = s /\ 0 <= i < TLB_SIZE /\ tlb (cache s) !! Z.to_nat i = Some t.
Proof.
  unfold load. destruct (Z.leb_spec 0 i); simpl; [|discriminate].
  destruct (Z.ltb_spec i TLB_SIZE); simpl; [|discriminate].
  destruct (tlb (cache s) !! Z.to_nat i) eqn:E; intros Heq; inversion Heq; subst.
  auto.
Qed.

Lemma load_Ret i s t :
  0 <= i < TLB_SIZE -> tlb (cache s) !! Z.to_nat i = Some t -> load i s = Ret t s.
Proof.
  intros [H0 H1] E. unfold load.
  destruct (Z.leb_spec 0 i); [|lia]. destruct (Z.ltb_spec i TLB_SIZE); [|lia].
  simpl. rewrite E. reflexivity.
Qed.

Lemma load_not_Abort i s s' : load i s <> Abort s'.
Proof.
  unfold load. destruct ((0 <=? i) && (i <? TLB_SIZE)); [|discriminate].
  destruct (tlb (cache s) !! Z.to_nat i); discriminate.
Qed.

Lemma store_Ret i t0 t s :
  0 <= i < TLB_SIZE -> tlb (cache s) !! Z.to_nat i = Some t0 ->
  store i t s = Ret tt (with_cache s (with_tlb (cache s) (<[Z.to_nat i := t]> (tlb (cache s))))).
Proof.
  intros [H0 H1] E. unfold store.
  destruct (Z.leb_spec 0 i); [|lia]. destruct (Z.ltb_spec i TLB_SIZE); [|lia].
  apply lookup_lt_Some in E. apply Nat.ltb_lt in E. rewrite E. reflexivity.
Qed.

(** ** What the validation functions compute *)

Lemma tlb_entry_validate_eq t s :
  tlb_entry_validate t s = if entry_checks t then Ret tt s else Abort s.
Proof.
  unfold tlb_entry_validate, tlb_pagesize_validate, tlb_flags_validate,
    entry_checks, bind, assert.
  destruct (tlbe.valid t); simpl; [|reflexivity].
  destruct ((tlbe.size t =? 4096) || (tlbe.size t =? 65536)
            || (tlbe.size t =? 16777216)); simpl; [|reflexivity].
  destruct (Z.land (tlbe.flags t) (not64 TLB_FLAGS_AVALIABLE) =? 0); simpl;
    [|reflexivity].
  destruct (Z.land (tlbe.ea t) (tlb_mask_offset t) =? 0); simpl; reflexivity.
Qed.

Lemma pagesize_ok_mask size : pagesize_ok size -> wrap64 (size - 1) = size - 1.
Proof. intros [->|[->| ->]]; reflexivity. Qed.

Lemma entry_checks_ok t : entry_checks t = true <-> entry_ok t.
Proof.
  unfold entry_checks, entry_ok, flags_ok, aligned, tlb_mask_offset. split.
  - intros H. rewrite !andb_true_iff in H.
    destruct H as ((((Hv & Hs) & Hf) & Ha) & Hr).
    assert (Hs' : pagesize_ok (tlbe.size t)).
    { unfold pagesize_ok. rewrite !orb_true_iff in Hs. lia. }
    rewrite (pagesize_ok_mask _ Hs') in *. repeat split; try lia; assumption.
  - intros (Hv & Hs & Hf & Ha & Hr).
    rewrite (pagesize_ok_mask _ Hs), Hv, Hf, Ha, Hr.
    destruct Hs as [->|[->| ->]]; reflexivity.
Qed.

Lemma tlb_match_eq ea flags t s :
  tlb_match ea flags t s =
  if entry_checks t then Ret (matches ea flags t) (traced ea flags t s) else Abort s.
Proof.
  unfold tlb_match. unfold bind at 1. rewrite tlb_entry_validate_eq.
  destruct (entry_checks t); [|reflexivity].
  unfold bind, get_debug, print, ret, traced, matches.
  destruct (tlb_debug s >? 0);
    destruct (ea <? tlbe.ea t); simpl; try reflexivity;
    destruct (ea >=? wrap64 (tlbe.ea t + tlbe.size t)); simpl; try reflexivity;
    destruct (flags =? tlbe.flags t); reflexivity.
Qed.

Lemma traced_cache ea flags t s : cache (traced ea flags t s) = cache s.
Proof. unfold traced. destruct (tlb_debug s >? 0); reflexivity. Qed.

Lemma traced_debug ea flags t s : tlb_debug (traced ea flags t s) = tlb_debug s.
Proof. unfold traced. destruct (tlb_debug s >? 0); reflexivity. Qed.

(** ** The linear search *)

(** The cache after [t->hit_count++] on slot [r], which held [t]. *)
Definition credited (c : tlb_cache) (r : Z) (t : tlbe.t) : tlb_cache :=
  with_tlb c (<[Z.to_nat r := tlbe.set_hit_count t (u64_incr (tlbe.hit_count t))]> (tlb c)).

(** No slot from [lo] up to [hi] (excluded) matches the probe. *)
Definition no_match (c : tlb_cache) (ea flags lo hi : Z) : Prop :=
  forall j t, lo <= j < hi -> tlb c !! Z.to_nat j = Some t -> matches ea flags t = false.

(** What a search over the slots [lo .. hi-1] returns and leaves behind:
    [-1] and an unchanged cache when no slot matches, otherwise the first
    matching slot with its hit counter incremented. *)
Definition search_post (s : world) (ea flags lo hi : Z) (r : Z) (s' : world) : Prop :=
  tlb_debug s' = tlb_debug s /\
  ((r = -1 /\ cache s' = cache s /\ no_match (cache s) ea flags lo hi)
   \/
   (lo <= r < hi /\ 0 <= r < TLB_SIZE /\
    exists t, tlb (cache s) !! Z.to_nat r = Some t /\ entry_checks t = true /\
              matches ea flags t = true /\ cache s' = credited (cache s) r t /\
              no_match (cache s) ea flags lo r)).

Lemma tlb_get_index_loop_spec n : forall ea flags i s,
  match tlb_get_index_loop n ea flags i s with
  | Ret r s' => search_post s ea flags i (i + Z.of_nat n) r s'
  | Abort s' => cache s' = cache s /\ tlb_debug s' = tlb_debug s
  | Undef => True
  end.
Proof.
  induction n as [|n IH]; intros ea flags i s.
  - simpl. unfold ret, search_post. split; [reflexivity|]. left.
    repeat split; try reflexivity. intros j t Hj. lia.
  - cbn [tlb_get_index_loop]. unfold bind at 1.
    destruct (load i s) as [t s0| s0|] eqn:L; [|exfalso; eapply load_not_Abort; eauto|exact I].
    apply load_Ret_inv in L. destruct L as (-> & Hi & Ht).
    unfold bind at 1. rewrite tlb_match_eq.
    destruct (entry_checks t) eqn:Hc; [|split; reflexivity].
    destruct (matches ea flags t) eqn:Hm.
    + unfold bind at 1. rewrite tlb_entry_validate_eq, Hc.
      unfold bind at 1.
      erewrite store_Ret; [|exact Hi|rewrite traced_cache; exact Ht].
      unfold ret, search_post. cbn [tlb_debug cache with_cache].
      rewrite traced_debug, traced_cache. split; [reflexivity|]. right.
      split; [lia|]. split; [exact Hi|]. exists t.
      repeat split; try assumption. intros j t' Hj. lia.
    + specialize (IH ea flags (i + 1) (traced ea flags t s)).
      destruct (tlb_get_index_loop n ea flags (i + 1) (traced ea flags t s))
        as [r s'| s'|]; [| |exact I].
      * unfold search_post in *. rewrite traced_debug, traced_cache in IH.
        destruct IH as [Hd IH]. split; [exact Hd|].
        assert (Hstep : forall hi, no_match (cache s) ea flags (i + 1) hi ->
                                   no_match (cache s) ea flags i hi).
        { intros hi Hn j t' Hj Hj'. destruct (Z.eq_dec j i) as [->|Hne].
          - rewrite Ht in Hj'. inversion Hj'. subst. exact Hm.
          - eapply Hn; [|exact Hj']. lia. }
        destruct IH as [(Hr & Hcache & Hno)|(Hr & Hr' & t' & H1 & H2 & H3 & H4 & H5)].
        -- left. repeat split; try assumption. apply Hstep.
           replace (i + Z.of_nat (S n)) with (i + 1 + Z.of_nat n) by lia. exact Hno.
        -- right. split; [lia|]. split; [exact Hr'|]. exists t'.
           repeat split; try assumption. apply Hstep. exact H5.
      * rewrite traced_debug, traced_cache in IH. exact IH.
Qed.

Lemma tlb_get_index_spec ea flags start s :
  match __tlb_get_index ea flags start s with
  | Ret r s' => search_post s ea flags start (Z.max start (next (cache s))) r s'
  | Abort s' => cache s' = cache s /\ tlb_debug s' = tlb_debug s
  | Undef => True
  end.
Proof.
  unfold __tlb_get_index, bind, get_cache.
  pose proof (tlb_get_index_loop_spec (Z.to_nat (next (cache s) - start)) ea flags start s) as H.
  replace (start + Z.of_nat (Z.to_nat (next (cache s) - start)))
    with (Z.max start (next (cache s))) in H by lia.
  exact H.
Qed.

(** Under the invariant the search neither aborts nor leaves the array. *)
Lemma tlb_get_index_loop_total n : forall ea flags i s,
  cache_inv (cache s) -> 0 <= i -> i + Z.of_nat n <= next (cache s) ->
  exists r s', tlb_get_index_loop n ea flags i s = Ret r s'.
Proof.
  induction n as [|n IH]; intros ea flags i s Hinv Hi Hn.
  - simpl. eexists _, _. reflexivity.
  - cbn [tlb_get_index_loop].
    destruct Hinv as [Hlen Hnext Hused Hfree].
    assert (Hlt : (Z.to_nat i < length (tlb (cache s)))%nat).
    { rewrite Hlen. unfold TLB_SIZE in *. lia. }
    destruct (lookup_lt_is_Some_2 _ _ Hlt) as [t Ht].
    destruct (Hused _ _ Ht) as (Hc & _); [lia|].
    erewrite bind_Ret; [|apply load_Ret; [unfold TLB_SIZE in *; lia|exact Ht]].
    unfold bind at 1. rewrite tlb_match_eq, Hc.
    destruct (matches ea flags t).
    + unfold bind at 1. rewrite tlb_entry_validate_eq, Hc.
      unfold bind at 1. erewrite store_Ret;
        [|unfold TLB_SIZE in *; lia|rewrite traced_cache; exact Ht].
      eexists _, _. reflexivity.
    + apply IH; [|lia|rewrite traced_cache; lia].
      rewrite traced_cache. constructor; assumption.
Qed.

Lemma tlb_get_index_total ea flags start s :
  cache_inv (cache s) -> 0 <= start ->
  exists r s', __tlb_get_index ea flags start s = Ret r s'.
Proof.
  intros Hinv Hs. unfold __tlb_get_index, bind, get_cache.
  destruct (Z.le_gt_cases start (next (cache s))).
  - apply tlb_get_index_loop_total; [assumption|assumption|lia].
  - replace (Z.to_nat (next (cache s) - start)) with O by lia.
    simpl. eexists _, _. reflexivity.
Qed.

(** ** The whole-store check *)

(** What the first loop of [tlb_validate] establishes for slot [i]: no
    later slot matches the first or the last address of its page. *)
Definition endpoints_clear (c : tlb_cache) (i : Z) : Prop :=
  forall t, tlb c !! Z.to_nat i = Some t ->
    no_match c (tlbe.ea t) (tlbe.flags t) (i + 1) (next c) /\
    no_match c (wrap64 (wrap64 (tlbe.ea t + tlbe.size t) - 1)) (tlbe.flags t)
             (i + 1) (next c).

Lemma no_match_shrink c ea flags lo hi hi' :
  hi' <= hi -> no_match c ea flags lo hi -> no_match c ea flags lo hi'.
Proof. intros Hle H j t Hj. apply H. lia. Qed.

Lemma search_post_none s ea flags lo hi s' :
  search_post s ea flags lo hi (-1) s' ->
  tlb_debug s' = tlb_debug s /\ cache s' = cache s /\ no_match (cache s) ea flags lo hi.
Proof.
  intros [Hd [(_ & Hc & Hn)|(_ & Hr & _)]]; [auto|lia].
Qed.

Lemma load_same_cache i s s' : cache s' = cache s ->
  forall t, load i s = Ret t s -> load i s' = Ret t s'.
Proof.
  intros Hc t H. apply load_Ret_inv in H. destruct H as (_ & Hi & Ht).
  apply load_Ret; [exact Hi|rewrite Hc; exact Ht].
Qed.

Lemma tlb_validate_overlaps_spec n : forall i s,
  match tlb_validate_overlaps n i s with
  | Ret _ s' =>
      cache s' = cache s /\ tlb_debug s' = tlb_debug s /\
      forall j, i <= j < i + Z.of_nat n -> endpoints_clear (cache s) j
  | _ => True
  end.
Proof.
  induction n as [|n IH]; intros i s.
  - simpl. unfold ret. split; [reflexivity|]. split; [reflexivity|].
    intros j Hj. lia.
  - cbn [tlb_validate_overlaps]. unfold bind at 1.
    destruct (load i s) as [t s0| |] eqn:L; [|exact I|exact I].
    pose proof L as L'. apply load_Ret_inv in L'. destruct L' as (-> & Hi & Ht).
    unfold bind at 1.
    pose proof (tlb_get_index_spec (tlbe.ea t) (tlbe.flags t) (i + 1) s) as H1.
    destruct (__tlb_get_index (tlbe.ea t) (tlbe.flags t) (i + 1) s)
      as [r1 s1| |]; [|exact I|exact I].
    unfold bind at 1. unfold assert at 1.
    destruct (Z.eqb_spec r1 (-1)) as [->|]; [|exact I].
    apply search_post_none in H1. destruct H1 as (Hd1 & Hc1 & Hn1).
    unfold bind at 1. rewrite (load_same_cache i s s1 Hc1 t L).
    unfold bind at 1.
    pose proof (tlb_get_index_spec (wrap64 (wrap64 (tlbe.ea t + tlbe.size t) - 1))
                  (tlbe.flags t) (i + 1) s1) as H2.
    destruct (__tlb_get_index (wrap64 (wrap64 (tlbe.ea t + tlbe.size t) - 1))
                (tlbe.flags t) (i + 1) s1) as [r2 s2| |]; [|exact I|exact I].
    unfold bind at 1. unfold assert at 1.
    destruct (Z.eqb_spec r2 (-1)) as [->|]; [|exact I].
    apply search_post_none in H2. destruct H2 as (Hd2 & Hc2 & Hn2).
    rewrite Hc1 in Hc2, Hn2.
    specialize (IH (i + 1) s2).
    destruct (tlb_validate_overlaps n (i + 1) s2) as [u s3| |]; [|exact I|exact I].
    destruct IH as (Hc3 & Hd3 & Hall). rewrite Hc2 in Hc3, Hall.
    split; [exact Hc3|]. split; [congruence|].
    intros j Hj. destruct (Z.eq_dec j i) as [->|Hne].
    + intros t' Ht'. rewrite Ht in Ht'. inversion Ht'; subst t'.
      split; eapply no_match_shrink; try eassumption; lia.
    + apply Hall. lia.
Qed.

Lemma tlb_validate_holes_spec n : forall i v s,
  match tlb_validate_holes n i v s with
  | Ret _ s' => s' = s
  | _ => True
  end.
Proof.
  induction n as [|n IH]; intros i v s.
  - reflexivity.
  - cbn [tlb_validate_holes]. unfold bind at 1.
    destruct (load i s) as [t s0| |] eqn:L; [|exact I|exact I].
    apply load_Ret_inv in L. destruct L as (-> & _ & _).
    unfold bind at 1, assert.
    destruct (negb (tlbe.valid t) || v); [|exact I]. apply IH.
Qed.

(** A whole-store check that returns has left the cache and the verbosity
    flag as they were, and has seen every used slot pass the end-point
    test. *)
Lemma tlb_validate_Ret_inv s u s' :
  tlb_validate s = Ret u s' ->
  cache s' = cache s /\ tlb_debug s' = tlb_debug s /\ next (cache s) <= TLB_SIZE /\
  forall j, 0 <= j < next (cache s) -> endpoints_clear (cache s) j.
Proof.
  unfold tlb_validate. unfold bind at 1, get_cache. unfold bind at 1, assert.
  destruct (Z.leb_spec (next (cache s)) TLB_SIZE) as [Hle|]; [|discriminate].
  unfold bind.
  pose proof (tlb_validate_overlaps_spec (Z.to_nat (next (cache s))) 0 s) as H1.
  destruct (tlb_validate_overlaps (Z.to_nat (next (cache s))) 0 s) as [u1 s1| |];
    try discriminate.
  pose proof (tlb_validate_holes_spec (Z.to_nat TLB_SIZE) 0 true s1) as H2.
  destruct (tlb_validate_holes (Z.to_nat TLB_SIZE) 0 true s1) as [u2 s2| |];
    try discriminate.
  intros H. inversion H; subst. destruct H1 as (Hc & Hd & Hall).
  split; [exact Hc|]. split; [exact Hd|]. split; [exact Hle|].
  intros j Hj. apply Hall. lia.
Qed.

Lemma tlb_init_eq s : tlb_init s = Ret tt (with_cache s zero_cache).
Proof. reflexivity. Qed.

(** ** The invariant is kept by every update of the store *)

Lemma cache_inv_zero : cache_inv zero_cache.
Proof.
  constructor; cbn [tlb next zero_cache].
  - apply length_replicate.
  - unfold TLB_SIZE. lia.
  - intros i t _ Hi. lia.
  - intros i t Hi _. apply lookup_replicate in Hi. destruct Hi as [-> _]. reflexivity.
Qed.

Lemma cache_inv_counters c tr nt ch :
  cache_inv c -> cache_inv (mk_cache (tlb c) (next c) tr nt ch).
Proof. intros [H1 H2 H3 H4]. constructor; assumption. Qed.

Lemma cache_inv_replace c i t' tr nt ch :
  cache_inv c -> 0 <= i < next c ->
  entry_checks t' = true -> is_u64 (tlbe.ea t') -> is_u64 (tlbe.ra t') ->
  cache_inv (mk_cache (<[Z.to_nat i := t']> (tlb c)) (next c) tr nt ch).
Proof.
  intros [Hlen Hnext Hused Hfree] Hi Hc Hea Hra.
  constructor; cbn [tlb next].
  - rewrite length_insert. exact Hlen.
  - exact Hnext.
  - intros j t Hj Hlt. destruct (Nat.eq_dec j (Z.to_nat i)) as [->|Hne].
    + rewrite list_lookup_insert_eq in Hj by (rewrite Hlen; unfold TLB_SIZE in *; lia).
      inversion Hj; subst. auto.
    + rewrite list_lookup_insert_ne in Hj by congruence. eauto.
  - intros j t Hj Hge.
    rewrite list_lookup_insert_ne in Hj by lia. eauto.
Qed.

Lemma cache_inv_append c t' tr nt ch :
  cache_inv c -> next c < TLB_SIZE ->
  entry_checks t' = true -> is_u64 (tlbe.ea t') -> is_u64 (tlbe.ra t') ->
  cache_inv (mk_cache (<[Z.to_nat (next c) := t']> (tlb c)) (next c + 1) tr nt ch).
Proof.
  intros [Hlen Hnext Hused Hfree] Hi Hc Hea Hra.
  constructor; cbn [tlb next].
  - rewrite length_insert. exact Hlen.
  - lia.
  - intros j t Hj Hlt. destruct (Nat.eq_dec j (Z.to_nat (next c))) as [->|Hne].
    + rewrite list_lookup_insert_eq in Hj by (rewrite Hlen; unfold TLB_SIZE in *; lia).
      inversion Hj; subst. auto.
    + rewrite list_lookup_insert_ne in Hj by congruence.
      apply (Hused j t Hj). lia.
  - intros j t Hj Hge.
    rewrite list_lookup_insert_ne in Hj by lia. apply (Hfree j t Hj). lia.
Qed.

Lemma candidate_checks ea flags ra pagesize tnew0 :
  pagesize_ok pagesize -> flags_ok flags ->
  entry_checks (candidate ea flags ra pagesize tnew0) = true
  /\ is_u64 (tlbe.ea (candidate ea flags ra pagesize tnew0))
  /\ is_u64 (tlbe.ra (candidate ea flags ra pagesize tnew0)).
Proof.
  intros Hp Hf. split; [|split].
  - apply entry_checks_ok. unfold entry_ok, aligned, candidate. cbn.
    rewrite (pagesize_ok_mask _ Hp).
    repeat split; try assumption; apply land_not64_clear.
  - apply land_u64_range, not64_range.
  - apply land_u64_range, not64_range.
Qed.

Lemma tlb_equal_true t1 t2 :
  tlb_equal t1 t2 = true <->
  tlbe.ea t1 = tlbe.ea t2 /\ tlbe.ra t1 = tlbe.ra t2 /\ tlbe.size t1 = tlbe.size t2
  /\ tlbe.flags t1 = tlbe.flags t2 /\ tlbe.valid t1 = tlbe.valid t2.
Proof.
  unfold tlb_equal.
  destruct (Z.eqb_spec (tlbe.ea t1) (tlbe.ea t2)); simpl; [|intuition congruence].
  destruct (Z.eqb_spec (tlbe.ra t1) (tlbe.ra t2)); simpl; [|intuition congruence].
  destruct (Z.eqb_spec (tlbe.size t1) (tlbe.size t2)); simpl; [|intuition congruence].
  destruct (Z.eqb_spec (tlbe.flags t1) (tlbe.flags t2)); simpl; [|intuition congruence].
  destruct (tlbe.valid t1), (tlbe.valid t2); simpl; intuition congruence.
Qed.

(** The assignments to [tnew] build the candidate. *)
Lemma tnew_candidate ea flags ra pagesize tnew0 :
  (let tnew := tlbe.set_size tnew0 pagesize in
   let tnew := tlbe.set_ea tnew (Z.land ea (tlb_mask_rpn tnew)) in
   let tnew := tlbe.set_ra tnew (Z.land ra (tlb_mask_rpn tnew)) in
   let tnew := tlbe.set_flags tnew flags in
   tlbe.set_valid tnew true) = candidate ea flags ra pagesize tnew0.
Proof. reflexivity. Qed.

(** ** What [tlb_ra_set] does when it returns *)

(** Slot [i] holds [t], the first entry of the used prefix that matches the
    probe. *)
Definition first_match (c : tlb_cache) (ea flags i : Z) (t : tlbe.t) : Prop :=
  0 <= i < next c /\ tlb c !! Z.to_nat i = Some t /\ entry_checks t = true
  /\ matches ea flags t = true /\ no_match c ea flags 0 i.

(** [t] after [t->hit_count++] in the search and [t->miss_count++] in
    [tlb_ra_set]. *)
Definition repeated (t : tlbe.t) : tlbe.t :=
  tlbe.set_miss_count (tlbe.set_hit_count t (u64_incr (tlbe.hit_count t)))
                      (u64_incr (tlbe.miss_count t)).

(** The three ways [tlb_ra_set] returns: the candidate repeats the entry
    found, it replaces the entry found, or it is appended. *)
Inductive set_result (ea flags ra pagesize : Z) (tnew0 : tlbe.t) (s s' : world) : Prop :=
| set_repeat i t :
    first_match (cache s) ea flags i t ->
    tlb_equal (candidate ea flags ra pagesize tnew0) t = true ->
    cache s' = with_tlb (cache s) (<[Z.to_nat i := repeated t]> (tlb (cache s))) ->
    set_result ea flags ra pagesize tnew0 s s'
| set_replace i t :
    first_match (cache s) ea flags i t ->
    tlb_equal (candidate ea flags ra pagesize tnew0) t = false ->
    cache s' = mk_cache (<[Z.to_nat i := candidate ea flags ra pagesize tnew0]> (tlb (cache s)))
                        (next (cache s)) (translations (cache s))
                        (no_translation (cache s))
                        (int_incr (translation_changes (cache s))) ->
    set_result ea flags ra pagesize tnew0 s s'
| set_append :
    no_match (cache s) ea flags 0 (next (cache s)) ->
    next (cache s) < TLB_SIZE ->
    cache s' = mk_cache (<[Z.to_nat (next (cache s)) := candidate ea flags ra pagesize tnew0]>
                           (tlb (cache s)))
                        (next (cache s) + 1) (translations (cache s))
                        (no_translation (cache s)) (translation_changes (cache s)) ->
    set_result ea flags ra pagesize tnew0 s s'.

Lemma tlb_pagesize_validate_Ret_inv size s u s' :
  tlb_pagesize_validate size s = Ret u s' -> pagesize_ok size /\ s' = s.
Proof.
  unfold tlb_pagesize_validate. intros H. apply assert_Ret_inv in H.
  destruct H as [H ->]. split; [|reflexivity].
  unfold pagesize_ok. rewrite !orb_true_iff in H. lia.
Qed.

Lemma tlb_flags_validate_Ret_inv flags s u s' :
  tlb_flags_validate flags s = Ret u s' -> flags_ok flags /\ s' = s.
Proof.
  unfold tlb_flags_validate. intros H. apply assert_Ret_inv in H.
  destruct H as [H ->]. split; [|reflexivity]. unfold flags_ok. lia.
Qed.

Lemma tlb_equal_hit t1 t v : tlb_equal t1 (tlbe.set_hit_count t v) = tlb_equal t1 t.
Proof. reflexivity. Qed.

Lemma store_Ret_inv i t s u s' :
  store i t s = Ret u s' ->
  0 <= i < TLB_SIZE /\ (Z.to_nat i < length (tlb (cache s)))%nat
  /\ s' = with_cache s (with_tlb (cache s) (<[Z.to_nat i := t]> (tlb (cache s)))).
Proof.
  unfold store. destruct (Z.leb_spec 0 i); simpl; [|discriminate].
  destruct (Z.ltb_spec i TLB_SIZE); simpl; [|discriminate].
  destruct (Nat.ltb_spec (Z.to_nat i) (length (tlb (cache s)))); [|discriminate].
  intros Heq. inversion Heq. auto.
Qed.

Lemma put_debug_Ret_inv v s u s' :
  put_debug v s = Ret u s' -> s' = mk_world (cache s) v (stdout s).
Proof. unfold put_debug. intros H. inversion H. reflexivity. Qed.

Lemma tlb_ra_set_Ret_inv ea flags ra pagesize tnew0 s s' :
  cache_inv (cache s) ->
  tlb_ra_set ea flags ra pagesize tnew0 s = Ret tt s' ->
  pagesize_ok pagesize /\ flags_ok flags /\ tlb_debug s' = 0
  /\ set_result ea flags ra pagesize tnew0 s s'.
Proof.
  intros Hinv H. unfold tlb_ra_set in H. rewrite tnew_candidate in H.
  apply bind_Ret_inv in H. destruct H as (u1 & s1 & Hp & H).
  apply tlb_pagesize_validate_Ret_inv in Hp. destruct Hp as [Hp ->].
  apply bind_Ret_inv in H. destruct H as (u2 & s2 & Hf & H).
  apply tlb_flags_validate_Ret_inv in Hf. destruct Hf as [Hf ->].
  split; [exact Hp|]. split; [exact Hf|].
  apply bind_Ret_inv in H. destruct H as (r & s3 & Hg & H).
  pose proof (tlb_get_index_spec ea flags 0 s) as Hspec.
  unfold tlb_get_index in Hg. rewrite Hg in Hspec. clear Hg.
  pose proof (inv_next _ Hinv) as Hnext.
  rewrite Z.max_r in Hspec by lia.
  apply bind_Ret_inv in H. destruct H as (index & s4 & Hidx & H).
  apply bind_Ret_inv in H. destruct H as (u5 & s5 & Hd & H).
  apply put_debug_Ret_inv in Hd. subst s5.
  apply bind_Ret_inv in H. destruct H as (t1 & s6 & Hl & H).
  apply load_Ret_inv in Hl. destruct Hl as (-> & Hidx' & Ht1).
  cbn [cache] in Ht1.
  destruct Hspec as [Hdbg [(-> & Hc3 & Hno)|(Hr & Hr' & t & Ht & Hck & Hm & Hc3 & Hno)]].
  - (* nothing found: the candidate goes to the first free slot *)
    change (-1 <? 0) with true in Hidx.
    unfold bind, get_cache, put_cache, assert, ret in Hidx. cbn in Hidx.
    rewrite Hc3 in Hidx.
    rewrite int_incr_succ in Hidx by (unfold INT_MIN, INT_MAX, TLB_SIZE in *; lia).
    destruct (Z.leb_spec (next (cache s) + 1) TLB_SIZE) as [Hle|]; [|discriminate].
    inversion Hidx; subst index s4; clear Hidx.
    cbn in Ht1.
    assert (Hv : tlbe.valid t1 = false).
    { eapply (inv_free _ Hinv); [exact Ht1|lia]. }
    destruct (tlb_equal (candidate ea flags ra pagesize tnew0) t1) eqn:Heq.
    { apply tlb_equal_true in Heq. cbn in Heq. intuition congruence. }
    rewrite Hv in H.
    apply bind_Ret_inv in H. destruct H as (u7 & s7 & Hr7 & H).
    unfold ret in Hr7. inversion Hr7; subst s7; clear Hr7.
    apply bind_Ret_inv in H. destruct H as (u8 & s8 & Hst & H).
    apply store_Ret_inv in Hst. destruct Hst as (_ & _ & ->).
    apply tlb_validate_Ret_inv in H. destruct H as (Hc & Hd & _).
    cbn in Hc, Hd. split; [exact Hd|].
    apply set_append; [exact Hno|lia|]. rewrite Hc. reflexivity.
  - (* slot r matches *)
    assert (Hlt : (r <? 0) = false) by lia. rewrite Hlt in Hidx.
    unfold ret in Hidx. inversion Hidx; subst index s4; clear Hidx.
    rewrite Hc3 in Ht1. cbn in Ht1.
    rewrite list_lookup_insert_eq in Ht1 by (eapply lookup_lt_Some; exact Ht).
    inversion Ht1; subst t1; clear Ht1.
    rewrite tlb_equal_hit in H.
    assert (Hfirst : first_match (cache s) ea flags r t).
    { unfold first_match. repeat split; try assumption; lia. }
    destruct (tlb_equal (candidate ea flags ra pagesize tnew0) t) eqn:Heq.
    + apply store_Ret_inv in H. destruct H as (_ & _ & ->).
      cbn. split; [reflexivity|].
      eapply set_repeat; [exact Hfirst|exact Heq|].
      cbn. rewrite Hc3. unfold credited, with_tlb. cbn.
      rewrite list_insert_insert_eq. reflexivity.
    + assert (Hv : tlbe.valid t = true).
      { apply entry_checks_ok in Hck. apply Hck. }
      cbn [tlbe.valid tlbe.set_hit_count] in H. rewrite Hv in H.
      apply bind_Ret_inv in H. destruct H as (u7 & s7 & Hr7 & H).
      unfold bind, get_cache, put_cache in Hr7. inversion Hr7; subst s7; clear Hr7.
      apply bind_Ret_inv in H. destruct H as (u8 & s8 & Hst & H).
      apply store_Ret_inv in Hst. destruct Hst as (_ & _ & ->).
      apply tlb_validate_Ret_inv in H. destruct H as (Hc & Hd & _).
      cbn in Hc, Hd. split; [exact Hd|].
      eapply set_replace; [exact Hfirst|exact Heq|].
      rewrite Hc, Hc3. unfold credited, with_tlb. cbn.
      rewrite list_insert_insert_eq. reflexivity.
Qed.

Lemma tlb_ra_set_inv ea flags ra pagesize tnew0 s s' :
  cache_inv (cache s) ->
  tlb_ra_set ea flags ra pagesize tnew0 s = Ret tt s' ->
  cache_inv (cache s').
Proof.
  intros Hinv H. destruct (tlb_ra_set_Ret_inv _ _ _ _ _ _ _ Hinv H) as (Hp & Hf & _ & Hres).
  destruct (candidate_checks ea flags ra pagesize tnew0 Hp Hf) as (Hck & Hea & Hra).
  destruct Hres as [i t (Hi & Ht & Hc & _) _ ->|i t (Hi & _) _ ->|_ Hlt ->].
  - destruct (inv_used _ Hinv _ _ Ht) as (_ & Hea' & Hra'); [lia|].
    apply cache_inv_replace; assumption.
  - apply cache_inv_replace; assumption.
  - apply cache_inv_append; assumption.
Qed.

(** ** What [tlb_translate] and [tlb_ra_get] do *)

(** The value [tlb_translate] computes. *)
Definition translated (ea : Z) (t : tlbe.t) : Z :=
  Z.lor (Z.land ea (tlb_mask_offset t)) (Z.land (tlbe.ra t) (tlb_mask_rpn t)).

Lemma tlb_translate_eq ea flags t s :
  tlb_translate ea flags t s =
  if (ea >=? tlbe.ea t) && (ea <? wrap64 (tlbe.ea t + tlbe.size t))
     && (Z.land flags (not64 TLB_FLAGS_AVALIABLE) =? 0) && entry_checks t
  then Ret (translated ea t) s else Abort s.
Proof.
  unfold tlb_translate, tlb_flags_validate, translated.
  unfold bind at 1, assert at 1. destruct (ea >=? tlbe.ea t); [|reflexivity].
  unfold bind at 1, assert at 1.
  destruct (ea <? wrap64 (tlbe.ea t + tlbe.size t)); [|reflexivity].
  unfold bind at 1, assert at 1.
  destruct (Z.land flags (not64 TLB_FLAGS_AVALIABLE) =? 0); [|reflexivity].
  unfold bind at 1. rewrite tlb_entry_validate_eq.
  destruct (entry_checks t); reflexivity.
Qed.

(** A match of an entry that passed the entry check is a match in the
    arithmetic of [uint64_t] and, when the entry's address is not negative,
    a match of the page as a set of integers. *)
Lemma matches_true ea flags t :
  matches ea flags t = true <->
  tlbe.ea t <= ea /\ ea < wrap64 (tlbe.ea t + tlbe.size t) /\ flags = tlbe.flags t.
Proof. unfold matches. rewrite !andb_true_iff, !negb_true_iff. lia. Qed.

Lemma matches_in_page ea flags t :
  0 <= tlbe.ea t + tlbe.size t -> matches ea flags t = true ->
  in_page ea t /\ flags = tlbe.flags t.
Proof.
  intros H0 H. apply matches_true in H. destruct H as (H1 & H2 & H3).
  pose proof (wrap64_le _ H0). unfold in_page. lia.
Qed.

Lemma entry_ok_size_pos t : entry_ok t -> 0 < tlbe.size t.
Proof. intros (_ & [H|[H|H]] & _); lia. Qed.

Lemma tlb_ra_get_Ret_pointers ea flags ra pagesize s o s' :
  tlb_ra_get ea flags ra pagesize s = Ret o s' -> ra = Obj /\ pagesize = Obj.
Proof.
  unfold tlb_ra_get. unfold bind at 1, assert at 1.
  destruct ra; [discriminate|]. cbn [non_null].
  unfold bind at 1, assert at 1.
  destruct pagesize; [discriminate|]. auto.
Qed.

Lemma tlb_ra_get_Ret_inv ea flags s o s' :
  cache_inv (cache s) ->
  tlb_ra_get ea flags Obj Obj s = Ret o s' ->
  tlb_debug s' = tlb_debug s /\
  ((o = None /\ no_match (cache s) ea flags 0 (next (cache s)) /\
    cache s' = mk_cache (tlb (cache s)) (next (cache s))
                        (int_incr (translations (cache s)))
                        (int_incr (no_translation (cache s)))
                        (translation_changes (cache s)))
   \/
   (exists i t, first_match (cache s) ea flags i t /\
      o = Some (translated ea t, tlbe.size t) /\
      cache s' = mk_cache (tlb (credited (cache s) i t)) (next (cache s))
                          (int_incr (translations (cache s)))
                          (no_translation (cache s))
                          (translation_changes (cache s)))).
Proof.
  intros Hinv H. unfold tlb_ra_get in H. cbn [non_null] in H.
  unfold bind at 1, assert at 1 in H. unfold bind at 1, assert at 1 in H.
  unfold bind at 1, get_cache at 1 in H. unfold bind at 1, put_cache at 1 in H.
  apply bind_Ret_inv in H. destruct H as (r & s3 & Hg & H).
  pose proof (tlb_get_index_spec ea flags 0
                (with_cache s (with_translations (cache s) (int_incr (translations (cache s))))))
    as Hspec.
  unfold tlb_get_index in Hg. rewrite Hg in Hspec. clear Hg.
  pose proof (inv_next _ Hinv) as Hnext.
  cbn [cache with_cache next with_translations tlb_debug] in Hspec.
  rewrite Z.max_r in Hspec by lia.
  destruct Hspec as [Hdbg [(-> & Hc3 & Hno)|(Hr & Hr' & t & Ht & Hck & Hm & Hc3 & Hno)]].
  - change (-1 <? 0) with true in H.
    unfold bind, get_cache, put_cache, ret in H. inversion H; subst; clear H.
    split; [exact Hdbg|]. left. split; [reflexivity|]. split; [exact Hno|].
    cbn. rewrite Hc3. reflexivity.
  - assert (Hlt : (r <? 0) = false) by lia. rewrite Hlt in H.
    apply bind_Ret_inv in H. destruct H as (t1 & s4 & Hl & H).
    apply load_Ret_inv in Hl. destruct Hl as (-> & _ & Ht1).
    rewrite Hc3 in Ht1. cbn in Ht1.
    rewrite list_lookup_insert_eq in Ht1 by (eapply lookup_lt_Some; exact Ht).
    inversion Ht1; subst t1; clear Ht1.
    unfold bind at 1 in H. rewrite tlb_translate_eq in H.
    destruct (_ && _) in H; [|discriminate].
    unfold ret in H. inversion H; subst; clear H.
    split; [exact Hdbg|]. right. exists r, t. split.
    + unfold first_match. repeat split; try assumption; lia.
    + split; [reflexivity|]. rewrite Hc3. reflexivity.
Qed.

Lemma tlb_ra_get_inv ea flags s o s' :
  cache_inv (cache s) -> tlb_ra_get ea flags Obj Obj s = Ret o s' -> cache_inv (cache s').
Proof.
  intros Hinv H. destruct (tlb_ra_get_Ret_inv _ _ _ _ _ Hinv H)
    as (_ & [(_ & _ & ->)|(i & t & (Hi & Ht & Hc & _) & _ & ->)]).
  - apply cache_inv_counters. exact Hinv.
  - destruct (inv_used _ Hinv _ _ Ht) as (_ & Hea' & Hra'); [lia|].
    apply cache_inv_replace; assumption.
Qed.

(** ** Every reachable memory satisfies the invariant *)

Lemma exec_inv c s s' :
  cache_inv (cache s) -> exec c s = Ret tt s' -> cache_inv (cache s').
Proof.
  intros Hinv H.
  destruct c as [| |ea flags pa pb|ea flags ra pagesize tnew0|v]; cbn [exec] in H.
  - rewrite tlb_init_eq in H. inversion H. apply cache_inv_zero.
  - apply tlb_validate_Ret_inv in H. destruct H as (-> & _). exact Hinv.
  - apply bind_Ret_inv in H. destruct H as (o & s1 & Hg & H).
    destruct (tlb_ra_get_Ret_pointers _ _ _ _ _ _ _ Hg) as [-> ->].
    unfold ret in H. inversion H; subst. eapply tlb_ra_get_inv; eassumption.
  - eapply tlb_ra_set_inv; eassumption.
  - unfold put_debug in H. inversion H. exact Hinv.
Qed.

Lemma reachable_inv s : reachable s -> cache_inv (cache s).
Proof.
  induction 1 as [|s c s' _ IH H].
  - apply cache_inv_zero.
  - eapply exec_inv; eassumption.
Qed.

Lemma run_reachable cs : forall s s',
  reachable s -> run cs s = Ret tt s' -> reachable s'.
Proof.
  induction cs as [|c cs IH]; intros s s' Hs H.
  - unfold run, ret in H. inversion H; subst. exact Hs.
  - cbn [run] in H. apply bind_Ret_inv in H. destruct H as ([] & s1 & H1 & H2).
    eapply IH; [|exact H2]. eapply reachable_step; eassumption.
Qed.

(** ** The search, forwards *)

Lemma tlb_get_index_none ea flags s :
  cache_inv (cache s) -> no_match (cache s) ea flags 0 (next (cache s)) ->
  exists s', __tlb_get_index ea flags 0 s = Ret (-1) s'
             /\ cache s' = cache s /\ tlb_debug s' = tlb_debug s.
Proof.
  intros Hinv Hno.
  destruct (tlb_get_index_total ea flags 0 s Hinv) as (r & s' & Hg); [lia|].
  pose proof (tlb_get_index_spec ea flags 0 s) as Hspec. rewrite Hg in Hspec.
  pose proof (inv_next _ Hinv) as Hnext. rewrite Z.max_r in Hspec by lia.
  destruct Hspec as [Hdbg [(-> & Hc & _)|(Hr & _ & t & Ht & _ & Hm & _)]].
  - exists s'. auto.
  - rewrite (Hno r t) in Hm by (assumption || lia). discriminate.
Qed.

Lemma tlb_get_index_found ea flags s i t :
  cache_inv (cache s) -> first_match (cache s) ea flags i t ->
  exists s', __tlb_get_index ea flags 0 s = Ret i s'
             /\ cache s' = credited (cache s) i t /\ tlb_debug s' = tlb_debug s.
Proof.
  intros Hinv (Hi & Ht & Hck & Hm & Hno).
  destruct (tlb_get_index_total ea flags 0 s Hinv) as (r & s' & Hg); [lia|].
  pose proof (tlb_get_index_spec ea flags 0 s) as Hspec. rewrite Hg in Hspec.
  pose proof (inv_next _ Hinv) as Hnext. rewrite Z.max_r in Hspec by lia.
  destruct Hspec as [Hdbg [(-> & _ & Hno')|(Hr & _ & t' & Ht' & _ & Hm' & Hc & Hno')]].
  - rewrite (Hno' i t) in Hm by (assumption || lia). discriminate.
  - assert (r = i).
    { destruct (Z.lt_trichotomy r i) as [Hlt|[Heq|Hgt]]; [|exact Heq|].
      - rewrite (Hno r t') in Hm' by (assumption || lia). discriminate.
      - rewrite (Hno' i t) in Hm by (assumption || lia). discriminate. }
    subst r. rewrite Ht in Ht'. inversion Ht'; subst t'.
    exists s'. auto.
Qed.

(** ** The claims *)

(** C3.  In every memory reachable by calls that returned, the valid
    entries are exactly the slots below the cursor [tlb.next]: the store
    has 256 slots, the cursor lies between 0 and 256, every slot below the
    cursor is valid and every slot from the cursor on is invalid. *)
Theorem valid_prefix s :
  reachable s ->
  length (tlb (cache s)) = 256%nat /\ 0 <= next (cache s) <= 256 /\
  forall (i : nat) (t : tlbe.t), tlb (cache s) !! i = Some t ->
    (Z.of_nat i < next (cache s) -> tlbe.valid t = true) /\
    (next (cache s) <= Z.of_nat i -> tlbe.valid t = false).
Proof.
  intros Hr. apply reachable_inv in Hr. destruct Hr as [Hlen Hnext Hused Hfree].
  split; [exact Hlen|]. split; [exact Hnext|].
  intros i t Ht. split; intros Hi.
  - destruct (Hused i t Ht Hi) as (Hck & _).
    apply entry_checks_ok in Hck. apply Hck.
  - apply (Hfree i t Ht Hi).
Qed.

(** C4.  In every memory reachable by calls that returned, every valid
    entry has a page size of 4096, 65536 or 16777216, and its [ea] and its
    [ra] have the low [size - 1] bits clear. *)
Theorem valid_entries_aligned s :
  reachable s ->
  forall (i : nat) (t : tlbe.t), tlb (cache s) !! i = Some t -> tlbe.valid t = true ->
    pagesize_ok (tlbe.size t)
    /\ aligned (tlbe.ea t) (tlbe.size t) /\ aligned (tlbe.ra t) (tlbe.size t).
Proof.
  intros Hr i t Ht Hv. apply reachable_inv in Hr.
  destruct (Z.lt_ge_cases (Z.of_nat i) (next (cache s))) as [Hi|Hi].
  - destruct (inv_used _ Hr i t Ht Hi) as (Hck & _).
    apply entry_checks_ok in Hck. destruct Hck as (_ & Hp & _ & Ha & Hb). auto.
  - rewrite (inv_free _ Hr i t Ht Hi) in Hv. discriminate.
Qed.

(** A [uint64_t] has no bit at position 64 or above. *)
Lemma u64_testbit_high x i : is_u64 x -> 64 <= i -> Z.testbit x i = false.
Proof.
  intros Hx Hi. rewrite <- (Z.mod_small x (2 ^ 64)) by exact Hx.
  apply Z.mod_pow2_bits_high. lia.
Qed.

(** On a [uint64_t] the 64-bit complement masks like the complement. *)
Lemma land_not64_lnot x m : is_u64 x -> Z.land x (not64 m) = Z.land x (Z.lnot m).
Proof.
  intros Hx. apply Z.bits_inj'. intros i Hi.
  rewrite !Z.land_spec, not64_testbit, Z.lnot_spec by lia.
  destruct (Z.ltb_spec i 64); [reflexivity|].
  rewrite (u64_testbit_high x i) by assumption. reflexivity.
Qed.

(** When the assertions of the translator hold, with [t.ea + t.size] taken
    in [uint64_t] as the second assertion takes it, [tlb_translate] returns
    [(ea AND (t.size - 1)) OR (t.ra AND NOT (t.size - 1))] and leaves the
    memory alone; the bits of the result below the page size are those of
    [ea] and the bits from the page size up are those of [t.ra]. *)
Lemma translate_correct ea flags t s :
  is_u64 (tlbe.ra t) ->
  tlbe.ea t <= ea -> ea < wrap64 (tlbe.ea t + tlbe.size t) ->
  flags_ok flags -> entry_ok t ->
  let r := Z.lor (Z.land ea (tlbe.size t - 1))
                 (Z.land (tlbe.ra t) (Z.lnot (tlbe.size t - 1))) in
  tlb_translate ea flags t s = Ret r s
  /\ Z.land r (tlbe.size t - 1) = Z.land ea (tlbe.size t - 1)
  /\ Z.land r (Z.lnot (tlbe.size t - 1)) = Z.land (tlbe.ra t) (Z.lnot (tlbe.size t - 1)).
Proof.
  intros Hra Hlo Hhi Hf Hok r. split; [|split].
  - rewrite tlb_translate_eq.
    assert (H1 : (ea >=? tlbe.ea t) = true) by lia.
    assert (H2 : (ea <? wrap64 (tlbe.ea t + tlbe.size t)) = true) by lia.
    assert (H3 : (Z.land flags (not64 TLB_FLAGS_AVALIABLE) =? 0) = true)
      by (unfold flags_ok in Hf; lia).
    pose proof (proj2 (entry_checks_ok t) Hok) as H4.
    rewrite H1, H2, H3, H4. cbn [andb].
    unfold translated, tlb_mask_rpn, tlb_mask_offset.
    destruct Hok as (_ & Hp & _).
    rewrite (pagesize_ok_mask _ Hp), (land_not64_lnot _ _ Hra). reflexivity.
  - subst r. apply Z.bits_inj'. intros i Hi.
    rewrite !Z.land_spec, Z.lor_spec, !Z.land_spec, Z.lnot_spec by lia.
    destruct (Z.testbit ea i), (Z.testbit (tlbe.ra t) i),
      (Z.testbit (tlbe.size t - 1) i); reflexivity.
  - subst r. apply Z.bits_inj'. intros i Hi.
    rewrite !Z.land_spec, Z.lor_spec, !Z.land_spec, Z.lnot_spec by lia.
    destruct (Z.testbit ea i), (Z.testbit (tlbe.ra t) i),
      (Z.testbit (tlbe.size t - 1) i); reflexivity.
Qed.


(** An entry on the last page of the address space matches no address: the
    end of its range wraps to 0. *)
Remark top_page_never_matches ea flags t :
  0 <= ea -> tlbe.ea t + tlbe.size t = 2 ^ 64 -> matches ea flags t = false.
Proof.
  intros Hea Htop. unfold matches, wrap64. rewrite Htop, Z.mod_same by lia.
  assert (H : (ea >=? 0) = true) by lia. rewrite H.
  cbn [negb]. rewrite andb_false_r. reflexivity.
Qed.

(** C7.  When the entry [t] found for [(ea, flags)] equals the candidate
    up to the counters, [tlb_ra_set] returns, slot [i] keeps its [ea],
    [ra], [size], [flags] and [valid], its miss counter is incremented, its
    hit counter is the one the search has incremented (the counters are
    not reset), every other slot, the cursor and the three counters of the
    cache, the translation-changes counter among them, are unchanged. *)
Theorem set_repeat_counts ea flags ra pagesize tnew0 s i t :
  reachable s ->
  first_match (cache s) ea flags i t ->
  tlb_equal (candidate ea flags ra pagesize tnew0) t = true ->
  exists s' t',
    tlb_ra_set ea flags ra pagesize tnew0 s = Ret tt s'
    /\ tlb (cache s') !! Z.to_nat i = Some t'
    /\ tlbe.miss_count t' = u64_incr (tlbe.miss_count t)
    /\ tlbe.hit_count t' = u64_incr (tlbe.hit_count t)
    /\ tlbe.ea t' = tlbe.ea t /\ tlbe.ra t' = tlbe.ra t
    /\ tlbe.size t' = tlbe.size t /\ tlbe.flags t' = tlbe.flags t
    /\ tlbe.valid t' = tlbe.valid t
    /\ (forall j : nat, j <> Z.to_nat i -> tlb (cache s') !! j = tlb (cache s) !! j)
    /\ translation_changes (cache s') = translation_changes (cache s)
    /\ translations (cache s') = translations (cache s)
    /\ no_translation (cache s') = no_translation (cache s)
    /\ next (cache s') = next (cache s).
Proof.
  intros Hr Hfirst Heq. apply reachable_inv in Hr.
  destruct (tlb_get_index_found ea flags s i t Hr Hfirst) as (s3 & Hg & Hc3 & _).
  destruct Hfirst as (Hi & Ht & Hck & Hm & _).
  pose proof (inv_next _ Hr) as Hnext.
  assert (Hlen : (Z.to_nat i < length (tlb (cache s)))%nat)
    by (eapply lookup_lt_Some; exact Ht).
  assert (Hp : pagesize_ok pagesize /\ flags_ok flags).
  { apply tlb_equal_true in Heq. cbn in Heq. destruct Heq as (_ & _ & -> & -> & _).
    apply entry_checks_ok in Hck. destruct Hck as (_ & Hp & Hf & _). auto. }
  destruct Hp as [Hp Hf].
  exists (with_cache (mk_world (cache s3) 0 (stdout s3))
            (with_tlb (cache s) (<[Z.to_nat i := repeated t]> (tlb (cache s))))),
         (repeated t).
  split.
  - unfold tlb_ra_set. rewrite tnew_candidate.
    unfold tlb_pagesize_validate, tlb_flags_validate.
    unfold bind at 1, assert at 1.
    replace ((pagesize =? 4096) || (pagesize =? 65536) || (pagesize =? 16777216))
      with true by (symmetry; unfold pagesize_ok in Hp; rewrite !orb_true_iff; lia).
    unfold bind at 1, assert at 1.
    replace (Z.land flags (not64 TLB_FLAGS_AVALIABLE) =? 0) with true
      by (unfold flags_ok in Hf; lia).
    unfold bind at 1, tlb_get_index. rewrite Hg.
    replace (i <? 0) with false by lia.
    unfold bind at 1, ret at 1. unfold bind at 1, put_debug at 1.
    unfold bind at 1.
    erewrite load_Ret;
      [|unfold TLB_SIZE in *; lia
       |cbn [cache]; rewrite Hc3; cbn; apply list_lookup_insert_eq; exact Hlen].
    rewrite tlb_equal_hit, Heq.
    erewrite store_Ret;
      [|unfold TLB_SIZE in *; lia
       |cbn [cache]; rewrite Hc3; cbn; apply list_lookup_insert_eq; exact Hlen].
    cbn [cache]. rewrite Hc3. unfold credited, with_tlb, with_cache, repeated. cbn.
    rewrite list_insert_insert_eq. reflexivity.
  - cbn. split; [apply list_lookup_insert_eq; exact Hlen|].
    repeat (split; [reflexivity|]). split; [|auto].
    intros j Hj. apply list_lookup_insert_ne. congruence.
Qed.

(** C8.  When [ea] lies in the page of no valid entry with the flags
    [flags], [tlb_ra_get] returns "not found", increments the total-lookups
    counter [translations] and the [no_translation] counter, and leaves
    every slot of the store, the cursor and the translation-changes counter
    as they were. *)
Theorem lookup_miss ea flags s :
  reachable s ->
  (forall (i : nat) (t : tlbe.t), tlb (cache s) !! i = Some t -> tlbe.valid t = true ->
     ~ (tlbe.flags t = flags /\ in_page ea t)) ->
  exists s',
    tlb_ra_get ea flags Obj Obj s = Ret None s'
    /\ translations (cache s') = int_incr (translations (cache s))
    /\ no_translation (cache s') = int_incr (no_translation (cache s))
    /\ tlb (cache s') = tlb (cache s)
    /\ next (cache s') = next (cache s)
    /\ translation_changes (cache s') = translation_changes (cache s).
Proof.
  intros Hr Hnone. apply reachable_inv in Hr.
  set (s1 := with_cache s (with_translations (cache s) (int_incr (translations (cache s))))).
  assert (Hinv1 : cache_inv (cache s1)) by (apply cache_inv_counters; exact Hr).
  assert (Hno : no_match (cache s1) ea flags 0 (next (cache s1))).
  { intros j t Hj Ht. cbn in Hj, Ht.
    destruct (inv_used _ Hr _ _ Ht) as (Hck & Hea & _); [lia|].
    apply entry_checks_ok in Hck.
    destruct (matches ea flags t) eqn:Hm; [|reflexivity].
    apply matches_in_page in Hm.
    - exfalso. apply (Hnone _ _ Ht); [apply Hck|]. destruct Hm. auto.
    - pose proof (entry_ok_size_pos _ Hck). unfold is_u64 in Hea. lia. }
  destruct (tlb_get_index_none ea flags s1 Hinv1 Hno) as (s2 & Hg & Hc2 & _).
  exists (with_cache s2 (with_no_translation (cache s2) (int_incr (no_translation (cache s2))))).
  split.
  - unfold tlb_ra_get. cbn [non_null].
    unfold bind at 1, assert at 1. unfold bind at 1, assert at 1.
    unfold bind at 1, get_cache at 1. unfold bind at 1, put_cache at 1.
    fold s1. unfold bind at 1, tlb_get_index. rewrite Hg. reflexivity.
  - cbn. rewrite Hc2. cbn. auto.
Qed.

(** C9.  In a memory that satisfies the invariant of the cache, as every
    reachable memory does: when all 256 slots hold valid entries and none
    of them matches [(ea, flags)], [tlb_ra_set] aborts, and the store at
    the abort is the store before the call: nothing was appended, evicted
    or overwritten. *)
Theorem set_full_aborts ea flags ra pagesize tnew0 s :
  cache_inv (cache s) ->
  (forall (i : nat) (t : tlbe.t), tlb (cache s) !! i = Some t -> tlbe.valid t = true) ->
  (forall (i : nat) (t : tlbe.t), tlb (cache s) !! i = Some t -> matches ea flags t = false) ->
  exists s',
    tlb_ra_set ea flags ra pagesize tnew0 s = Abort s'
    /\ tlb (cache s') = tlb (cache s).
Proof.
  intros Hr Hall Hnone.
  pose proof (inv_next _ Hr) as Hnext. pose proof (inv_length _ Hr) as Hlen.
  assert (Hfull : next (cache s) = TLB_SIZE).
  { destruct (Z.eq_dec (next (cache s)) TLB_SIZE) as [|Hne]; [assumption|].
    assert (Hlt : (Z.to_nat (next (cache s)) < length (tlb (cache s)))%nat)
      by (rewrite Hlen; lia).
    destruct (lookup_lt_is_Some_2 _ _ Hlt) as [t Ht].
    pose proof (Hall _ _ Ht) as Hv.
    rewrite (inv_free _ Hr _ _ Ht) in Hv by lia. discriminate. }
  assert (Hno : no_match (cache s) ea flags 0 (next (cache s))).
  { intros j t _ Ht. eapply Hnone. exact Ht. }
  destruct (tlb_get_index_none ea flags s Hr Hno) as (s3 & Hg & Hc3 & _).
  unfold tlb_ra_set. rewrite tnew_candidate.
  unfold tlb_pagesize_validate, tlb_flags_validate.
  unfold bind at 1, assert at 1.
  destruct ((pagesize =? 4096) || (pagesize =? 65536) || (pagesize =? 16777216));
    [|exists s; split; reflexivity].
  unfold bind at 1, assert at 1.
  destruct (Z.land flags (not64 TLB_FLAGS_AVALIABLE) =? 0);
    [|exists s; split; reflexivity].
  unfold bind at 1, tlb_get_index. rewrite Hg.
  change (-1 <? 0) with true.
  unfold bind, get_cache, put_cache, assert, ret. cbn [cache with_cache next with_next].
  rewrite Hc3, Hfull. cbn.
  eexists. split; [reflexivity|]. reflexivity.
Qed.

(** The verbosity flag is only written by the assignment in [tlb_ra_set]. *)
Lemma tlb_ra_set_debug ea flags ra pagesize tnew0 s s' :
  tlb_ra_set ea flags ra pagesize tnew0 s = Ret tt s' -> tlb_debug s' = 0.
Proof.
  intros H. unfold tlb_ra_set in H. rewrite tnew_candidate in H.
  apply bind_Ret_inv in H. destruct H as (u1 & s1 & _ & H).
  apply bind_Ret_inv in H. destruct H as (u2 & s2 & _ & H).
  apply bind_Ret_inv in H. destruct H as (r & s3 & _ & H).
  apply bind_Ret_inv in H. destruct H as (index & s4 & _ & H).
  apply bind_Ret_inv in H. destruct H as (u5 & s5 & Hd & H).
  apply put_debug_Ret_inv in Hd. subst s5.
  apply bind_Ret_inv in H. destruct H as (t1 & s6 & Hl & H).
  apply load_Ret_inv in Hl. destruct Hl as (-> & _ & _).
  destruct (tlb_equal (candidate ea flags ra pagesize tnew0) t1).
  - apply store_Ret_inv in H. destruct H as (_ & _ & ->). reflexivity.
  - apply bind_Ret_inv in H. destruct H as (u7 & s7 & Hc & H).
    assert (Hd7 : tlb_debug s7 = 0).
    { destruct (tlbe.valid t1).
      - unfold bind, get_cache, put_cache in Hc. inversion Hc. reflexivity.
      - unfold ret in Hc. inversion Hc. reflexivity. }
    apply bind_Ret_inv in H. destruct H as (u8 & s8 & Hst & H).
    apply store_Ret_inv in Hst. destruct Hst as (_ & _ & ->).
    apply tlb_validate_Ret_inv in H. destruct H as (_ & Hd & _).
    rewrite Hd. exact Hd7.
Qed.

(** Two outcomes that agree in everything but [tlb_debug] and what has been
    printed. *)
Definition same_result {A} (o1 o2 : outcome A) : Prop :=
  match o1, o2 with
  | Ret a s1, Ret b s2 => a = b /\ cache s1 = cache s2
  | Abort s1, Abort s2 => cache s1 = cache s2
  | Undef, Undef => True
  | _, _ => False
  end.

(** [m] does not look at [tlb_debug] or at what has been printed, except to
    print. *)
Definition blind {A} (m : M A) : Prop :=
  forall s1 s2, cache s1 = cache s2 -> same_result (m s1) (m s2).

Lemma blind_ret {A} (a : A) : blind (ret a).
Proof. intros s1 s2 H. cbn. auto. Qed.

Lemma blind_bind {A B} (m : M A) (f : A -> M B) :
  blind m -> (forall a, blind (f a)) -> blind (bind m f).
Proof.
  intros Hm Hf s1 s2 H. specialize (Hm s1 s2 H). unfold bind.
  destruct (m s1) as [a t1|t1|], (m s2) as [b t2|t2|]; cbn in Hm; try contradiction.
  - destruct Hm as [<- Hc]. apply Hf. exact Hc.
  - exact Hm.
  - exact I.
Qed.

Lemma blind_assert c : blind (assert c).
Proof. intros s1 s2 H. unfold assert. destruct c; cbn; auto. Qed.

Lemma blind_get_cache : blind get_cache.
Proof. intros s1 s2 H. cbn. auto. Qed.

Lemma blind_put_cache c : blind (put_cache c).
Proof. intros s1 s2 H. cbn. auto. Qed.

Lemma blind_put_debug v : blind (put_debug v).
Proof. intros s1 s2 H. cbn. auto. Qed.

Lemma blind_load i : blind (load i).
Proof.
  intros s1 s2 H. unfold load. rewrite H.
  destruct ((0 <=? i) && (i <? TLB_SIZE)); [|exact I].
  destruct (tlb (cache s2) !! Z.to_nat i); cbn; auto.
Qed.

Lemma blind_store i t : blind (store i t).
Proof.
  intros s1 s2 H. unfold store. rewrite H.
  destruct ((0 <=? i) && (i <? TLB_SIZE) && (Z.to_nat i <? length (tlb (cache s2)))%nat);
    cbn; auto.
Qed.

Lemma blind_tlb_entry_validate t : blind (tlb_entry_validate t).
Proof.
  intros s1 s2 H. rewrite !tlb_entry_validate_eq.
  destruct (entry_checks t); cbn; auto.
Qed.

Lemma blind_tlb_match ea flags t : blind (tlb_match ea flags t).
Proof.
  intros s1 s2 H. rewrite !tlb_match_eq.
  destruct (entry_checks t); cbn; [|exact H].
  rewrite !traced_cache. auto.
Qed.

Lemma blind_tlb_get_index_loop n : forall ea flags i, blind (tlb_get_index_loop n ea flags i).
Proof.
  induction n as [|n IH]; intros ea flags i; cbn [tlb_get_index_loop].
  - apply blind_ret.
  - apply blind_bind; [apply blind_load|]. intros t.
    apply blind_bind; [apply blind_tlb_match|]. intros [|]; [|apply IH].
    apply blind_bind; [apply blind_tlb_entry_validate|]. intros _.
    apply blind_bind; [apply blind_store|]. intros _. apply blind_ret.
Qed.

Lemma blind_tlb_get_index ea flags start : blind (__tlb_get_index ea flags start).
Proof.
  unfold __tlb_get_index. apply blind_bind; [apply blind_get_cache|].
  intros c. apply blind_tlb_get_index_loop.
Qed.

Lemma blind_tlb_validate_overlaps n : forall i, blind (tlb_validate_overlaps n i).
Proof.
  induction n as [|n IH]; intros i; cbn [tlb_validate_overlaps].
  - apply blind_ret.
  - apply blind_bind; [apply blind_load|]. intros t.
    apply blind_bind; [apply blind_tlb_get_index|]. intros r.
    apply blind_bind; [apply blind_assert|]. intros _.
    apply blind_bind; [apply blind_load|]. intros t'.
    apply blind_bind; [apply blind_tlb_get_index|]. intros r'.
    apply blind_bind; [apply blind_assert|]. intros _. apply IH.
Qed.

Lemma blind_tlb_validate_holes n : forall i v, blind (tlb_validate_holes n i v).
Proof.
  induction n as [|n IH]; intros i v; cbn [tlb_validate_holes].
  - apply blind_ret.
  - apply blind_bind; [apply blind_load|]. intros t.
    apply blind_bind; [apply blind_assert|]. intros _. apply IH.
Qed.

Lemma blind_tlb_validate : blind tlb_validate.
Proof.
  unfold tlb_validate. apply blind_bind; [apply blind_get_cache|]. intros c.
  apply blind_bind; [apply blind_assert|]. intros _.
  apply blind_bind; [apply blind_tlb_validate_overlaps|]. intros _.
  apply blind_tlb_validate_holes.
Qed.

Lemma blind_tlb_ra_set ea flags ra pagesize tnew0 :
  blind (tlb_ra_set ea flags ra pagesize tnew0).
Proof.
  unfold tlb_ra_set, tlb_pagesize_validate, tlb_flags_validate, tlb_get_index.
  apply blind_bind; [apply blind_assert|]. intros _.
  apply blind_bind; [apply blind_assert|]. intros _.
  apply blind_bind; [apply blind_tlb_get_index|]. intros index.
  apply blind_bind.
  { destruct (index <? 0); [|apply blind_ret].
    apply blind_bind; [apply blind_get_cache|]. intros c.
    apply blind_bind; [apply blind_put_cache|]. intros _.
    apply blind_bind; [apply blind_get_cache|]. intros c'.
    apply blind_bind; [apply blind_assert|]. intros _. apply blind_ret. }
  intros index'.
  apply blind_bind; [apply blind_put_debug|]. intros _.
  apply blind_bind; [apply blind_load|]. intros t.
  cbv zeta. destruct (tlb_equal _ t); [apply blind_store|].
  apply blind_bind.
  { destruct (tlbe.valid t); [|apply blind_ret].
    apply blind_bind; [apply blind_get_cache|]. intros c. apply blind_put_cache. }
  intros _. apply blind_bind; [apply blind_store|]. intros _. apply blind_tlb_validate.
Qed.

(** C10.  A call of [tlb_ra_set] that returns leaves [tlb_debug] at 0, and
    this does not depend on the value of [tlb_debug] on entry: entered in
    the same cache with any other value [d] of the flag (and anything
    printed so far), the call returns as well, with the same cache and with
    [tlb_debug] at 0. *)
Theorem set_clears_debug ea flags ra pagesize tnew0 s s' :
  tlb_ra_set ea flags ra pagesize tnew0 s = Ret tt s' ->
  tlb_debug s' = 0
  /\ forall (d : Z) (out : list event),
       exists s'',
         tlb_ra_set ea flags ra pagesize tnew0 (mk_world (cache s) d out) = Ret tt s''
         /\ tlb_debug s'' = 0 /\ cache s'' = cache s'.
Proof.
  intros H. split; [eapply tlb_ra_set_debug; exact H|].
  intros d out.
  pose proof (blind_tlb_ra_set ea flags ra pagesize tnew0 s (mk_world (cache s) d out)
                eq_refl) as Hb.
  rewrite H in Hb.
  destruct (tlb_ra_set ea flags ra pagesize tnew0 (mk_world (cache s) d out))
    as [[] s''| |] eqn:H2; cbn in Hb; try contradiction.
  exists s''. split; [reflexivity|]. split.
  - eapply tlb_ra_set_debug. exact H2.
  - symmetry. apply Hb.
Qed.

(** C6.  From the empty cache, after [set (0x1000, 0, 0x2000, 4096)] the
    call [set (0x1000, 0, 0x3000, 4096)] returns with the
    translation-changes counter one higher, and the lookup
    [lookup (0x1005, 0)] that follows finds [ra = 0x3005] (with page size
    4096), whatever the storage of [tnew] held in the two calls. *)
Theorem replace_scenario (s0 : world) (tnew0 tnew1 : tlbe.t) :
  exists s1 s2 s3,
    (tlb_init;; tlb_ra_set 0x1000 0 0x2000 4096 tnew0) s0 = Ret tt s1
    /\ tlb_ra_set 0x1000 0 0x3000 4096 tnew1 s1 = Ret tt s2
    /\ translation_changes (cache s2) = translation_changes (cache s1) + 1
    /\ tlb_ra_get 0x1005 0 Obj Obj s2 = Ret (Some (0x3005, 4096)) s3.
Proof.
  exists (mk_world (mk_cache (<[0%nat := candidate 0x1000 0 0x2000 4096 tnew0]>
                                (tlb zero_cache)) 1 0 0 0) 0 (stdout s0)).
  exists (mk_world (mk_cache (<[0%nat := candidate 0x1000 0 0x3000 4096 tnew1]>
                                (tlb zero_cache)) 1 0 0 1) 0 (stdout s0)).
  eexists. split; [reflexivity|]. split; [reflexivity|]. split; reflexivity.
Qed.

(** C1 (the code breaks it).  The calls [init], [set (0x1000, 0, 0x1000,
    4096)], [set (0x2000, 0, 0x2000, 4096)] and [set (0x1800, 0, 0, 65536)]
    all return.  The third [set] finds slot 0 and replaces its 4 KiB page by
    the 64 KiB page at 0; the whole-store check passes, because neither the
    first nor the last address of that page lies in the page of slot 1.
    Slots 0 and 1 are then both valid, have the same flags, and their pages
    [[0, 0x10000)] and [[0x2000, 0x3000)] overlap. *)
Theorem overlap_after_replace (tnew0 tnew1 tnew2 : tlbe.t) :
  exists s t0 t1,
    run [CallInit; CallSet 0x1000 0 0x1000 4096 tnew0;
         CallSet 0x2000 0 0x2000 4096 tnew1;
         CallSet 0x1800 0 0 65536 tnew2] startup = Ret tt s
    /\ reachable s
    /\ tlb (cache s) !! 0%nat = Some t0 /\ tlb (cache s) !! 1%nat = Some t1
    /\ tlbe.valid t0 = true /\ tlbe.valid t1 = true
    /\ tlbe.flags t0 = tlbe.flags t1
    /\ tlbe.ea t0 = 0 /\ tlbe.size t0 = 65536
    /\ tlbe.ea t1 = 0x2000 /\ tlbe.size t1 = 4096
    /\ overlap t0 t1.
Proof.
  set (cs := [CallInit; CallSet 0x1000 0 0x1000 4096 tnew0;
              CallSet 0x2000 0 0x2000 4096 tnew1;
              CallSet 0x1800 0 0 65536 tnew2]).
  set (s := mk_world
              (mk_cache (<[1%nat := candidate 0x2000 0 0x2000 4096 tnew1]>
                           (<[0%nat := candidate 0x1800 0 0 65536 tnew2]> (tlb zero_cache)))
                        2 0 0 1) 0 []).
  assert (Hrun : run cs startup = Ret tt s) by reflexivity.
  exists s, (candidate 0x1800 0 0 65536 tnew2), (candidate 0x2000 0 0x2000 4096 tnew1).
  split; [exact Hrun|].
  split; [exact (run_reachable cs startup s reachable_startup Hrun)|].
  repeat (split; [reflexivity|]). unfold overlap. split; reflexivity.
Qed.

(** C2 (the code breaks it).  [tnew] is never cleared: after [init], the
    call [set (0x1000, 0, 0x2000, 4096)] appends the candidate, and the hit
    and miss counters of slot 0 are what the storage of [tnew] held in
    their place, here 7 and 9, not 0. *)
Theorem set_counters_not_reset :
  exists s t,
    (tlb_init;; tlb_ra_set 0x1000 0 0x2000 4096 (tlbe.mk 0 0 0 0 7 9 false)) startup
      = Ret tt s
    /\ tlb (cache s) !! 0%nat = Some t
    /\ tlbe.ea t = 0x1000 /\ tlbe.ra t = 0x2000 /\ tlbe.valid t = true
    /\ tlbe.hit_count t = 7 /\ tlbe.miss_count t = 9.
Proof.
  eexists _, _. split; [vm_compute; reflexivity|]. repeat split; reflexivity.
Qed.

(** ** Pages as intervals *)

Lemma pagesize_pow2 size :
  pagesize_ok size -> exists k, 0 <= k < 64 /\ size = 2 ^ k /\ size - 1 = Z.ones k.
Proof.
  intros [->|[->| ->]]; [exists 12|exists 16|exists 24]; repeat split; lia.
Qed.

Lemma aligned_mod x size : pagesize_ok size -> aligned x size -> x mod size = 0.
Proof.
  intros Hp Ha. destruct (pagesize_pow2 _ Hp) as (k & Hk & Hs & Ho).
  unfold aligned in Ha. rewrite Ho, Z.land_ones in Ha by lia. rewrite Hs. exact Ha.
Qed.

(** Masking a [uint64_t] with [~(size - 1)] rounds it down to a multiple of
    the page size. *)
Lemma page_base x size :
  pagesize_ok size -> is_u64 x -> Z.land x (not64 (size - 1)) = x - x mod size.
Proof.
  intros Hp Hx. destruct (pagesize_pow2 _ Hp) as (k & Hk & Hs & Ho).
  rewrite (land_not64_lnot _ _ Hx), <- Z.sub_land_same_l, Ho, Z.land_ones by lia.
  rewrite Hs. reflexivity.
Qed.

Lemma page_offset x size : pagesize_ok size -> Z.land x (size - 1) = x mod size.
Proof.
  intros Hp. destruct (pagesize_pow2 _ Hp) as (k & Hk & Hs & Ho).
  rewrite Ho, Z.land_ones by lia. rewrite Hs. reflexivity.
Qed.

(** The page of an entry that passed the entry check ends at 2^64 at the
    latest, and an entry that does not end there ends a page below. *)
Lemma entry_ok_page_end t :
  entry_ok t -> is_u64 (tlbe.ea t) ->
  tlbe.ea t + tlbe.size t = 2 ^ 64
  \/ tlbe.ea t + tlbe.size t <= 2 ^ 64 - tlbe.size t.
Proof.
  intros (_ & Hp & _ & Ha & _) Hea.
  pose proof (aligned_mod _ _ Hp Ha) as Hmod.
  assert (Hdiv : (2 ^ 64) mod tlbe.size t = 0)
    by (destruct Hp as [->|[->| ->]]; reflexivity).
  assert (Hpos : 0 < tlbe.size t) by (destruct Hp as [->|[->| ->]]; lia).
  apply Z.mod_divide in Hmod; [|lia]. apply Z.mod_divide in Hdiv; [|lia].
  destruct Hmod as [q Hq]. destruct Hdiv as [p Hp'].
  unfold is_u64 in Hea. rewrite Hq, Hp' in *.
  assert (q < p) by nia.
  destruct (Z.eq_dec (q + 1) p) as [<-|Hne]; [left; lia|right; nia].
Qed.

(** In the arithmetic of [uint64_t] an entry matches the addresses of its
    page, unless the page is the last one of the address space. *)
Lemma matches_iff_in_page ea flags t :
  entry_ok t -> is_u64 (tlbe.ea t) -> tlbe.ea t + tlbe.size t < 2 ^ 64 ->
  matches ea flags t = true <-> in_page ea t /\ flags = tlbe.flags t.
Proof.
  intros Hok Hea Hend. pose proof (entry_ok_size_pos _ Hok) as Hpos.
  rewrite matches_true, wrap64_small by (unfold is_u64 in Hea; lia).
  unfold in_page. tauto.
Qed.

Lemma matches_last_page ea flags t :
  entry_ok t -> is_u64 (tlbe.ea t) -> 2 ^ 64 - 4096 <= ea -> matches ea flags t = false.
Proof.
  intros Hok Hea Hlast.
  destruct (matches ea flags t) eqn:Hm; [|reflexivity]. exfalso.
  apply matches_true in Hm. destruct Hm as (H1 & H2 & _).
  assert (Hsz : 4096 <= tlbe.size t)
    by (destruct Hok as (_ & [->|[->| ->]] & _); lia).
  destruct (entry_ok_page_end t Hok Hea) as [Htop|Hlow].
  - rewrite Htop in H2. unfold wrap64 in H2. rewrite Z.mod_same in H2 by lia. lia.
  - rewrite wrap64_small in H2 by (unfold is_u64 in Hea; lia). lia.
Qed.

(** The translation moves the offset in the page from [t.ea] to [t.ra]. *)
Lemma translated_offset ea t :
  entry_ok t -> is_u64 (tlbe.ra t) -> in_page ea t ->
  translated ea t = tlbe.ra t + (ea - tlbe.ea t).
Proof.
  intros Hok Hra [Hlo Hhi]. destruct Hok as (_ & Hp & _ & Ha & Hb).
  unfold translated, tlb_mask_rpn, tlb_mask_offset.
  rewrite (pagesize_ok_mask _ Hp), (page_base _ _ Hp Hra), (page_offset _ _ Hp).
  pose proof (aligned_mod _ _ Hp Ha) as Hmea.
  pose proof (aligned_mod _ _ Hp Hb) as Hmra.
  assert (Hpos : 0 < tlbe.size t) by (destruct Hp as [->|[->| ->]]; lia).
  assert (Hoff : ea mod tlbe.size t = ea - tlbe.ea t).
  { apply Z.mod_divide in Hmea; [|lia]. destruct Hmea as [q Hq].
    symmetry. apply (Z.mod_unique_pos _ _ q); lia. }
  rewrite Hmra, Hoff, Z.sub_0_r.
  rewrite <- Z.lxor_lor, <- Z.add_nocarry_lxor; [lia| |].
  - rewrite <- Hoff, <- (page_offset _ _ Hp), <- Z.land_assoc, (Z.land_comm _ (tlbe.ra t)).
    rewrite Hb. apply Z.land_0_r.
  - rewrite <- Hoff, <- (page_offset _ _ Hp), <- Z.land_assoc, (Z.land_comm _ (tlbe.ra t)).
    rewrite Hb. apply Z.land_0_r.
Qed.

(** ** Lookups, forwards *)

Lemma tlb_ra_get_none ea flags s :
  cache_inv (cache s) -> no_match (cache s) ea flags 0 (next (cache s)) ->
  exists s',
    tlb_ra_get ea flags Obj Obj s = Ret None s'
    /\ tlb_debug s' = tlb_debug s
    /\ cache s' = mk_cache (tlb (cache s)) (next (cache s))
                           (int_incr (translations (cache s)))
                           (int_incr (no_translation (cache s)))
                           (translation_changes (cache s)).
Proof.
  intros Hinv Hno.
  set (s1 := with_cache s (with_translations (cache s) (int_incr (translations (cache s))))).
  assert (Hinv1 : cache_inv (cache s1)) by (apply cache_inv_counters; exact Hinv).
  destruct (tlb_get_index_none ea flags s1 Hinv1 Hno) as (s2 & Hg & Hc2 & Hd2).
  exists (with_cache s2 (with_no_translation (cache s2) (int_incr (no_translation (cache s2))))).
  split; [|split].
  - unfold tlb_ra_get. cbn [non_null].
    unfold bind at 1, assert at 1. unfold bind at 1, assert at 1.
    unfold bind at 1, get_cache at 1. unfold bind at 1, put_cache at 1.
    fold s1. unfold bind at 1, tlb_get_index. rewrite Hg. reflexivity.
  - cbn. rewrite Hd2. reflexivity.
  - cbn. rewrite Hc2. reflexivity.
Qed.

Lemma first_match_matches c ea flags i t :
  first_match c ea flags i t ->
  tlbe.ea t <= ea /\ ea < wrap64 (tlbe.ea t + tlbe.size t) /\ flags = tlbe.flags t.
Proof. intros (_ & _ & _ & Hm & _). apply matches_true. exact Hm. Qed.

Lemma tlb_ra_get_found ea flags s i t :
  cache_inv (cache s) -> first_match (cache s) ea flags i t ->
  exists s',
    tlb_ra_get ea flags Obj Obj s = Ret (Some (translated ea t, tlbe.size t)) s'
    /\ tlb_debug s' = tlb_debug s
    /\ cache s' = mk_cache (tlb (credited (cache s) i t)) (next (cache s))
                           (int_incr (translations (cache s)))
                           (no_translation (cache s))
                           (translation_changes (cache s)).
Proof.
  intros Hinv Hfirst.
  set (s1 := with_cache s (with_translations (cache s) (int_incr (translations (cache s))))).
  assert (Hinv1 : cache_inv (cache s1)) by (apply cache_inv_counters; exact Hinv).
  destruct (tlb_get_index_found ea flags s1 i t Hinv1 Hfirst) as (s2 & Hg & Hc2 & Hd2).
  pose proof (first_match_matches _ _ _ _ _ Hfirst) as (Hlo & Hhi & Hfl).
  destruct Hfirst as (Hi & Ht & Hck & _ & _).
  pose proof (inv_next _ Hinv) as Hnext.
  assert (Hlen : (Z.to_nat i < length (tlb (cache s)))%nat)
    by (eapply lookup_lt_Some; exact Ht).
  exists s2. split; [|split].
  - unfold tlb_ra_get. cbn [non_null].
    unfold bind at 1, assert at 1. unfold bind at 1, assert at 1.
    unfold bind at 1, get_cache at 1. unfold bind at 1, put_cache at 1.
    fold s1. unfold bind at 1, tlb_get_index. rewrite Hg.
    replace (i <? 0) with false by lia.
    unfold bind at 1.
    erewrite load_Ret;
      [|unfold TLB_SIZE in *; lia
       |rewrite Hc2; cbn; apply list_lookup_insert_eq; exact Hlen].
    unfold bind at 1. rewrite tlb_translate_eq.
    change (entry_checks (tlbe.set_hit_count t (u64_incr (tlbe.hit_count t))))
      with (entry_checks t).
    cbn [tlbe.ea tlbe.size tlbe.set_hit_count].
    assert (Hf : (Z.land flags (not64 TLB_FLAGS_AVALIABLE) =? 0) = true).
    { pose proof (proj1 (entry_checks_ok t) Hck) as (_ & _ & Hf & _).
      unfold flags_ok in Hf. rewrite Hfl. lia. }
    replace (ea >=? tlbe.ea t) with true by lia.
    replace (ea <? wrap64 (tlbe.ea t + tlbe.size t)) with true by lia.
    rewrite Hf, Hck. reflexivity.
  - rewrite Hd2. reflexivity.
  - rewrite Hc2. reflexivity.
Qed.

(** ** Further properties of the lookup *)

(** X1.  A lookup that hits.  In a reachable memory, when slot [i] holds
    the first entry [t] that matches [(ea, flags)], [tlb_ra_get] returns
    the real address [t.ra + (ea - t.ea)] and the page size of [t]; the hit
    counter of slot [i] and the total-lookups counter are incremented and
    nothing else in the cache changes. *)
Theorem lookup_hit ea flags s i t :
  reachable s -> first_match (cache s) ea flags i t ->
  exists s' t',
    tlb_ra_get ea flags Obj Obj s = Ret (Some (tlbe.ra t + (ea - tlbe.ea t), tlbe.size t)) s'
    /\ tlb (cache s') !! Z.to_nat i = Some t'
    /\ tlbe.hit_count t' = u64_incr (tlbe.hit_count t)
    /\ tlbe.miss_count t' = tlbe.miss_count t
    /\ tlbe.ea t' = tlbe.ea t /\ tlbe.ra t' = tlbe.ra t
    /\ tlbe.size t' = tlbe.size t /\ tlbe.flags t' = tlbe.flags t
    /\ tlbe.valid t' = tlbe.valid t
    /\ (forall j : nat, j <> Z.to_nat i -> tlb (cache s') !! j = tlb (cache s) !! j)
    /\ translations (cache s') = int_incr (translations (cache s))
    /\ no_translation (cache s') = no_translation (cache s)
    /\ translation_changes (cache s') = translation_changes (cache s)
    /\ next (cache s') = next (cache s).
Proof.
  intros Hr Hfirst. apply reachable_inv in Hr.
  destruct (tlb_ra_get_found ea flags s i t Hr Hfirst) as (s' & Hget & _ & Hc).
  destruct Hfirst as (Hi & Ht & Hck & Hm & _).
  destruct (inv_used _ Hr _ _ Ht) as (_ & Hea & Hra); [lia|].
  pose proof (proj1 (entry_checks_ok t) Hck) as Hok.
  assert (Hin : in_page ea t).
  { apply (matches_in_page ea flags t); [|exact Hm].
    pose proof (entry_ok_size_pos _ Hok). unfold is_u64 in Hea. lia. }
  assert (Hlen : (Z.to_nat i < length (tlb (cache s)))%nat)
    by (eapply lookup_lt_Some; exact Ht).
  exists s', (tlbe.set_hit_count t (u64_incr (tlbe.hit_count t))).
  split; [rewrite Hget, (translated_offset ea t Hok Hra Hin); reflexivity|].
  rewrite Hc. cbn.
  split; [apply list_lookup_insert_eq; exact Hlen|].
  repeat (split; [reflexivity|]). split; [|auto].
  intros j Hj. apply list_lookup_insert_ne. congruence.
Qed.

(** X15.  The translation below the last page.  For an entry that passes
    the entry check, holds 64-bit addresses and does not end at 2^64, and
    for flags that pass the flag check, [tlb_translate] returns for every
    [ea] of the page [[t.ea, t.ea + t.size)] the value
    [(ea AND (t.size - 1)) OR (t.ra AND NOT (t.size - 1))], which is
    [t.ra + (ea - t.ea)], and leaves the memory alone. *)
Theorem translate_in_page ea flags t s :
  entry_ok t -> is_u64 (tlbe.ea t) -> is_u64 (tlbe.ra t) -> flags_ok flags ->
  tlbe.ea t + tlbe.size t < 2 ^ 64 ->
  in_page ea t ->
  tlb_translate ea flags t s
  = Ret (Z.lor (Z.land ea (tlbe.size t - 1))
               (Z.land (tlbe.ra t) (Z.lnot (tlbe.size t - 1)))) s
  /\ Z.lor (Z.land ea (tlbe.size t - 1)) (Z.land (tlbe.ra t) (Z.lnot (tlbe.size t - 1)))
     = tlbe.ra t + (ea - tlbe.ea t).
Proof.
  intros Hok Hea Hra Hf Hend [Hlo Hhi].
  pose proof (entry_ok_size_pos _ Hok) as Hpos.
  assert (Hhi' : ea < wrap64 (tlbe.ea t + tlbe.size t))
    by (rewrite wrap64_small by (unfold is_u64 in Hea; lia); exact Hhi).
  destruct (translate_correct ea flags t s Hra Hlo Hhi' Hf Hok) as (Hrun & _).
  split; [exact Hrun|].
  rewrite <- (translated_offset ea t Hok Hra (conj Hlo Hhi)).
  unfold translated, tlb_mask_rpn, tlb_mask_offset.
  destruct Hok as (_ & Hp & _).
  rewrite (pagesize_ok_mask _ Hp), (land_not64_lnot _ _ Hra). reflexivity.
Qed.

(** X2.  The last page is never found.  In a reachable memory a lookup of
    an address in the last 4 KiB of the address space returns "not found",
    whatever has been set before: the end of the range of an entry that
    reaches 2^64 wraps to 0 in [tlb_match]. *)
Theorem lookup_last_page_misses ea flags s :
  reachable s -> 2 ^ 64 - 4096 <= ea ->
  exists s',
    tlb_ra_get ea flags Obj Obj s = Ret None s'
    /\ no_translation (cache s') = int_incr (no_translation (cache s))
    /\ tlb (cache s') = tlb (cache s).
Proof.
  intros Hr Hlast. apply reachable_inv in Hr.
  assert (Hno : no_match (cache s) ea flags 0 (next (cache s))).
  { intros j t Hj Ht. destruct (inv_used _ Hr _ _ Ht) as (Hck & Hea & _); [lia|].
    apply matches_last_page; [apply entry_checks_ok; exact Hck|exact Hea|exact Hlast]. }
  destruct (tlb_ra_get_none ea flags s Hr Hno) as (s' & Hget & _ & Hc).
  exists s'. split; [exact Hget|]. rewrite Hc. split; reflexivity.
Qed.

(** X3.  A lookup does not check its flags.  In a reachable memory a lookup
    with flag bits outside the permitted set does not abort: no entry has
    such flags, and the lookup returns "not found". *)
Theorem lookup_bad_flags_misses ea flags s :
  reachable s -> ~ flags_ok flags ->
  exists s',
    tlb_ra_get ea flags Obj Obj s = Ret None s'
    /\ no_translation (cache s') = int_incr (no_translation (cache s))
    /\ tlb (cache s') = tlb (cache s).
Proof.
  intros Hr Hbad. apply reachable_inv in Hr.
  assert (Hno : no_match (cache s) ea flags 0 (next (cache s))).
  { intros j t Hj Ht. destruct (inv_used _ Hr _ _ Ht) as (Hck & _); [lia|].
    destruct (matches ea flags t) eqn:Hm; [|reflexivity]. exfalso.
    apply matches_true in Hm. destruct Hm as (_ & _ & ->).
    apply entry_checks_ok in Hck. apply Hbad, Hck. }
  destruct (tlb_ra_get_none ea flags s Hr Hno) as (s' & Hget & _ & Hc).
  exists s'. split; [exact Hget|]. rewrite Hc. split; reflexivity.
Qed.

(** X4.  [tlb_init] forgets every translation.  From any memory [tlb_init]
    returns, and the lookup that follows finds nothing and leaves the cache
    empty with the two lookup counters at 1; [tlb_debug] is not reset. *)
Theorem init_forgets ea flags s :
  exists s',
    (tlb_init;; tlb_ra_get ea flags Obj Obj) s = Ret None s'
    /\ cache s' = mk_cache (tlb zero_cache) 0 1 1 0
    /\ tlb_debug s' = tlb_debug s.
Proof.
  destruct (tlb_ra_get_none ea flags (with_cache s zero_cache)) as (s' & Hget & Hd & Hc).
  - apply cache_inv_zero.
  - intros j t Hj. cbn in Hj. lia.
  - exists s'. split; [|split].
    + erewrite bind_Ret by apply tlb_init_eq. exact Hget.
    + rewrite Hc. reflexivity.
    + rewrite Hd. reflexivity.
Qed.

(** X5.  [tlb_ra_set] rejects a bad page size or bad flags before it
    touches anything: the process aborts in the memory of the call, with
    no hit counter credited and [tlb_debug] not yet cleared. *)
Theorem set_rejects_bad_arguments ea flags ra pagesize tnew0 s :
  ~ pagesize_ok pagesize \/ ~ flags_ok flags ->
  tlb_ra_set ea flags ra pagesize tnew0 s = Abort s.
Proof.
  intros Hbad. unfold tlb_ra_set, tlb_pagesize_validate, tlb_flags_validate.
  unfold bind at 1, assert at 1.
  destruct ((pagesize =? 4096) || (pagesize =? 65536) || (pagesize =? 16777216))
    eqn:Hp; [|reflexivity].
  unfold bind at 1, assert at 1.
  destruct (Z.eqb_spec (Z.land flags (not64 TLB_FLAGS_AVALIABLE)) 0) as [Hf|];
    [|reflexivity].
  exfalso. destruct Hbad as [Hbad|Hbad]; apply Hbad.
  - unfold pagesize_ok. rewrite !orb_true_iff in Hp. lia.
  - exact Hf.
Qed.

(** ** What the whole-store check guarantees between calls *)

(** Every used slot has passed the end-point test of [tlb_validate]. *)
Definition checked (c : tlb_cache) : Prop :=
  forall j, 0 <= j < next c -> endpoints_clear c j.

(** Slot by slot, [l'] holds the pages and flags of [l]; the other members
    may differ. *)
Definition same_pages (l l' : list tlbe.t) : Prop :=
  forall j : nat,
    match l !! j, l' !! j with
    | Some t, Some t' =>
        tlbe.ea t' = tlbe.ea t /\ tlbe.size t' = tlbe.size t
        /\ tlbe.flags t' = tlbe.flags t
    | None, None => True
    | _, _ => False
    end.

Lemma same_pages_refl l : same_pages l l.
Proof. intros j. destruct (l !! j); auto. Qed.

Lemma same_pages_insert l i t t' :
  l !! i = Some t ->
  tlbe.ea t' = tlbe.ea t -> tlbe.size t' = tlbe.size t -> tlbe.flags t' = tlbe.flags t ->
  same_pages l (<[i := t']> l).
Proof.
  intros Ht H1 H2 H3 j. destruct (Nat.eq_dec i j) as [<-|Hne].
  - rewrite list_lookup_insert_eq by (eapply lookup_lt_Some; exact Ht).
    rewrite Ht. auto.
  - rewrite list_lookup_insert_ne by exact Hne. apply same_pages_refl.
Qed.

Lemma matches_same_page ea flags t t' :
  tlbe.ea t' = tlbe.ea t -> tlbe.size t' = tlbe.size t -> tlbe.flags t' = tlbe.flags t ->
  matches ea flags t' = matches ea flags t.
Proof. intros H1 H2 H3. unfold matches. rewrite H1, H2, H3. reflexivity. Qed.

Lemma no_match_same_pages c c' ea flags lo hi :
  same_pages (tlb c) (tlb c') ->
  no_match c ea flags lo hi -> no_match c' ea flags lo hi.
Proof.
  intros Hsame Hno j t' Hj Ht'. specialize (Hsame (Z.to_nat j)). rewrite Ht' in Hsame.
  destruct (tlb c !! Z.to_nat j) as [t|] eqn:Ht; [|contradiction].
  destruct Hsame as (H1 & H2 & H3).
  rewrite (matches_same_page ea flags t t' H1 H2 H3). eapply Hno; eassumption.
Qed.

Lemma checked_same_pages c c' :
  same_pages (tlb c) (tlb c') -> next c' = next c -> checked c -> checked c'.
Proof.
  intros Hsame Hnext Hck j Hj t' Ht'. rewrite Hnext in *.
  pose proof (Hsame (Z.to_nat j)) as Hj'. rewrite Ht' in Hj'.
  destruct (tlb c !! Z.to_nat j) as [t|] eqn:Ht; [|contradiction].
  destruct Hj' as (-> & -> & ->).
  destruct (Hck j Hj t Ht) as [H1 H2].
  split; eapply no_match_same_pages; eassumption.
Qed.

Lemma checked_zero : checked zero_cache.
Proof. intros j Hj. cbn in Hj. lia. Qed.

(** A call of [tlb_ra_set] that returns has either repeated the entry it
    found or run the whole-store check on the cache it leaves. *)
Lemma tlb_ra_set_Ret_checked ea flags ra pagesize tnew0 s s' :
  cache_inv (cache s) ->
  tlb_ra_set ea flags ra pagesize tnew0 s = Ret tt s' ->
  (exists i t, first_match (cache s) ea flags i t
               /\ tlb_equal (candidate ea flags ra pagesize tnew0) t = true
               /\ cache s' = with_tlb (cache s) (<[Z.to_nat i := repeated t]> (tlb (cache s))))
  \/ checked (cache s').
Proof.
  intros Hinv H. unfold tlb_ra_set in H. rewrite tnew_candidate in H.
  apply bind_Ret_inv in H. destruct H as (u1 & s1 & Hp & H).
  apply tlb_pagesize_validate_Ret_inv in Hp. destruct Hp as [Hp ->].
  apply bind_Ret_inv in H. destruct H as (u2 & s2 & Hf & H).
  apply tlb_flags_validate_Ret_inv in Hf. destruct Hf as [Hf ->].
  apply bind_Ret_inv in H. destruct H as (r & s3 & Hg & H).
  pose proof (tlb_get_index_spec ea flags 0 s) as Hspec.
  unfold tlb_get_index in Hg. rewrite Hg in Hspec. clear Hg.
  pose proof (inv_next _ Hinv) as Hnext.
  rewrite Z.max_r in Hspec by lia.
  apply bind_Ret_inv in H. destruct H as (index & s4 & Hidx & H).
  apply bind_Ret_inv in H. destruct H as (u5 & s5 & Hd & H).
  apply put_debug_Ret_inv in Hd. subst s5.
  apply bind_Ret_inv in H. destruct H as (t1 & s6 & Hl & H).
  apply load_Ret_inv in Hl. destruct Hl as (-> & Hidx' & Ht1).
  cbn [cache] in Ht1.
  destruct Hspec as [Hdbg [(-> & Hc3 & Hno)|(Hr & Hr' & t & Ht & Hck & Hm & Hc3 & Hno)]].
  - change (-1 <? 0) with true in Hidx.
    unfold bind, get_cache, put_cache, assert, ret in Hidx. cbn in Hidx.
    rewrite Hc3 in Hidx.
    rewrite int_incr_succ in Hidx by (unfold INT_MIN, INT_MAX, TLB_SIZE in *; lia).
    destruct (Z.leb_spec (next (cache s) + 1) TLB_SIZE) as [Hle|]; [|discriminate].
    inversion Hidx; subst index s4; clear Hidx.
    cbn in Ht1.
    assert (Hv : tlbe.valid t1 = false).
    { eapply (inv_free _ Hinv); [exact Ht1|lia]. }
    destruct (tlb_equal (candidate ea flags ra pagesize tnew0) t1) eqn:Heq.
    { apply tlb_equal_true in Heq. cbn in Heq. intuition congruence. }
    rewrite Hv in H.
    apply bind_Ret_inv in H. destruct H as (u7 & s7 & Hr7 & H).
    unfold ret in Hr7. inversion Hr7; subst s7; clear Hr7.
    apply bind_Ret_inv in H. destruct H as (u8 & s8 & Hst & H).
    apply store_Ret_inv in Hst. destruct Hst as (_ & _ & ->).
    apply tlb_validate_Ret_inv in H. destruct H as (Hc & _ & _ & Hall).
    right. unfold checked. rewrite Hc. exact Hall.
  - assert (Hlt : (r <? 0) = false) by lia. rewrite Hlt in Hidx.
    unfold ret in Hidx. inversion Hidx; subst index s4; clear Hidx.
    rewrite Hc3 in Ht1. cbn in Ht1.
    rewrite list_lookup_insert_eq in Ht1 by (eapply lookup_lt_Some; exact Ht).
    inversion Ht1; subst t1; clear Ht1.
    rewrite tlb_equal_hit in H.
    destruct (tlb_equal (candidate ea flags ra pagesize tnew0) t) eqn:Heq.
    + apply store_Ret_inv in H. destruct H as (_ & _ & ->).
      left. exists r, t. split; [|split; [exact Heq|]].
      * unfold first_match. repeat split; try assumption; lia.
      * cbn. rewrite Hc3. unfold credited, with_tlb. cbn.
        rewrite list_insert_insert_eq. reflexivity.
    + apply bind_Ret_inv in H. destruct H as (u7 & s7 & Hr7 & H).
      apply bind_Ret_inv in H. destruct H as (u8 & s8 & Hst & H).
      apply tlb_validate_Ret_inv in H. destruct H as (Hc & _ & _ & Hall).
      right. unfold checked. rewrite Hc. exact Hall.
Qed.

Lemma exec_checked c s s' :
  cache_inv (cache s) -> checked (cache s) -> exec c s = Ret tt s' -> checked (cache s').
Proof.
  intros Hinv Hck H.
  destruct c as [| |ea flags pa pb|ea flags ra pagesize tnew0|v]; cbn [exec] in H.
  - rewrite tlb_init_eq in H. inversion H. apply checked_zero.
  - apply tlb_validate_Ret_inv in H. destruct H as (-> & _). exact Hck.
  - apply bind_Ret_inv in H. destruct H as (o & s1 & Hg & H).
    destruct (tlb_ra_get_Ret_pointers _ _ _ _ _ _ _ Hg) as [-> ->].
    unfold ret in H. inversion H; subst s1; clear H.
    destruct (tlb_ra_get_Ret_inv _ _ _ _ _ Hinv Hg)
      as (_ & [(_ & _ & ->)|(i & t & (Hi & Ht & _) & _ & ->)]).
    + apply (checked_same_pages (cache s)); [apply same_pages_refl|reflexivity|exact Hck].
    + apply (checked_same_pages (cache s)); [|reflexivity|exact Hck].
      cbn. eapply same_pages_insert; [exact Ht|reflexivity..].
  - destruct (tlb_ra_set_Ret_checked _ _ _ _ _ _ _ Hinv H)
      as [(i & t & (Hi & Ht & _) & _ & ->)|Hdone]; [|exact Hdone].
    apply (checked_same_pages (cache s)); [|reflexivity|exact Hck].
    cbn. eapply same_pages_insert; [exact Ht|reflexivity..].
  - unfold put_debug in H. inversion H. exact Hck.
Qed.

Lemma reachable_checked s : reachable s -> checked (cache s).
Proof.
  induction 1 as [|s c s' Hs IH H].
  - apply checked_zero.
  - eapply exec_checked; [apply reachable_inv; exact Hs|exact IH|exact H].
Qed.

(** ** The whole-store check, forwards *)

Lemma tlb_get_index_clear ea flags start s :
  cache_inv (cache s) -> 0 <= start <= next (cache s) ->
  no_match (cache s) ea flags start (next (cache s)) ->
  exists s', __tlb_get_index ea flags start s = Ret (-1) s'
             /\ cache s' = cache s /\ tlb_debug s' = tlb_debug s.
Proof.
  intros Hinv Hs Hno.
  destruct (tlb_get_index_total ea flags start s Hinv) as (r & s' & Hg); [lia|].
  pose proof (tlb_get_index_spec ea flags start s) as Hspec. rewrite Hg in Hspec.
  rewrite Z.max_r in Hspec by lia.
  destruct Hspec as [Hdbg [(-> & Hc & _)|(Hr & _ & t & Ht & _ & Hm & _)]].
  - exists s'. auto.
  - rewrite (Hno r t) in Hm by (assumption || lia). discriminate.
Qed.

Lemma tlb_validate_overlaps_total n : forall i s,
  cache_inv (cache s) -> checked (cache s) ->
  0 <= i -> i + Z.of_nat n <= next (cache s) ->
  exists s', tlb_validate_overlaps n i s = Ret tt s'
             /\ cache s' = cache s /\ tlb_debug s' = tlb_debug s.
Proof.
  induction n as [|n IH]; intros i s Hinv Hck Hi Hn.
  - exists s. repeat split.
  - pose proof (inv_next _ Hinv) as Hnext. pose proof (inv_length _ Hinv) as Hlen.
    assert (Hlt : (Z.to_nat i < length (tlb (cache s)))%nat)
      by (rewrite Hlen; unfold TLB_SIZE in *; lia).
    destruct (lookup_lt_is_Some_2 _ _ Hlt) as [t Ht].
    assert (Hi' : 0 <= i < next (cache s)) by lia.
    destruct (Hck i Hi' t Ht) as [Hn1 Hn2].
    assert (Hload : forall s0, cache s0 = cache s -> load i s0 = Ret t s0).
    { intros s0 Hc0. apply load_Ret; [unfold TLB_SIZE in *; lia|rewrite Hc0; exact Ht]. }
    destruct (tlb_get_index_clear (tlbe.ea t) (tlbe.flags t) (i + 1) s)
      as (s1 & Hg1 & Hc1 & Hd1); [exact Hinv|lia|exact Hn1|].
    destruct (tlb_get_index_clear (wrap64 (wrap64 (tlbe.ea t + tlbe.size t) - 1))
                (tlbe.flags t) (i + 1) s1)
      as (s2 & Hg2 & Hc2 & Hd2); [rewrite Hc1; exact Hinv|rewrite Hc1; lia
                                  |rewrite Hc1; exact Hn2|].
    destruct (IH (i + 1) s2) as (s3 & Hrec & Hc3 & Hd3).
    { rewrite Hc2, Hc1. exact Hinv. }
    { rewrite Hc2, Hc1. exact Hck. }
    { lia. }
    { rewrite Hc2, Hc1. lia. }
    exists s3. split; [|split; congruence].
    cbn [tlb_validate_overlaps].
    rewrite (bind_Ret _ _ _ _ _ (Hload s eq_refl)).
    rewrite (bind_Ret _ _ _ _ _ Hg1).
    unfold bind at 1, assert at 1. change (-1 =? -1) with true. cbv beta iota.
    rewrite (bind_Ret _ _ _ _ _ (Hload s1 Hc1)).
    rewrite (bind_Ret _ _ _ _ _ Hg2).
    unfold bind at 1, assert at 1. change (-1 =? -1) with true. cbv beta iota.
    exact Hrec.
Qed.

Lemma tlb_validate_holes_total n : forall i v s,
  cache_inv (cache s) -> 0 <= i -> i + Z.of_nat n <= TLB_SIZE ->
  v = true \/ next (cache s) <= i ->
  tlb_validate_holes n i v s = Ret tt s.
Proof.
  induction n as [|n IH]; intros i v s Hinv Hi Hn Hv.
  - reflexivity.
  - pose proof (inv_length _ Hinv) as Hlen.
    assert (Hlt : (Z.to_nat i < length (tlb (cache s)))%nat)
      by (rewrite Hlen; unfold TLB_SIZE in *; lia).
    destruct (lookup_lt_is_Some_2 _ _ Hlt) as [t Ht].
    cbn [tlb_validate_holes].
    erewrite bind_Ret; [|apply load_Ret; [unfold TLB_SIZE in *; lia|exact Ht]].
    destruct (Z.lt_ge_cases i (next (cache s))) as [Hin|Hout].
    + destruct (inv_used _ Hinv _ _ Ht) as (Hc & _); [lia|].
      apply entry_checks_ok in Hc. destruct Hc as (Hvalid & _).
      destruct Hv as [->|Hv]; [|lia].
      rewrite Hvalid. unfold bind at 1, assert at 1. cbn [negb orb].
      apply IH; auto; lia.
    + rewrite (inv_free _ Hinv _ _ Ht) by lia.
      unfold bind at 1, assert at 1. cbn [negb orb].
      apply IH; auto; lia.
Qed.

Lemma tlb_validate_total s :
  cache_inv (cache s) -> checked (cache s) ->
  exists s', tlb_validate s = Ret tt s' /\ cache s' = cache s /\ tlb_debug s' = tlb_debug s.
Proof.
  intros Hinv Hck. pose proof (inv_next _ Hinv) as Hnext.
  destruct (tlb_validate_overlaps_total (Z.to_nat (next (cache s))) 0 s)
    as (s1 & H1 & Hc1 & Hd1); [exact Hinv|exact Hck|lia|lia|].
  exists s1. split; [|auto].
  unfold tlb_validate. unfold bind at 1, get_cache at 1. unfold bind at 1, assert at 1.
  replace (next (cache s) <=? TLB_SIZE) with true by lia.
  rewrite (bind_Ret _ _ _ _ _ H1).
  apply tlb_validate_holes_total; [rewrite Hc1; exact Hinv|lia|unfold TLB_SIZE; lia|auto].
Qed.

(** ** Further properties of the store *)

(** X6.  [tlb_exit] never fails after calls that returned.  In a reachable
    memory the whole-store check of [tlb_exit] passes: the call returns and
    leaves the cache and [tlb_debug] as they were. *)
Theorem exit_returns s :
  reachable s ->
  exists s', tlb_exit s = Ret tt s' /\ cache s' = cache s /\ tlb_debug s' = tlb_debug s.
Proof.
  intros Hr. apply tlb_validate_total.
  - apply reachable_inv. exact Hr.
  - apply reachable_checked. exact Hr.
Qed.

Lemma last_address t :
  entry_ok t -> is_u64 (tlbe.ea t) ->
  wrap64 (wrap64 (tlbe.ea t + tlbe.size t) - 1) = tlbe.ea t + tlbe.size t - 1.
Proof.
  intros Hok Hea. pose proof (entry_ok_size_pos _ Hok) as Hpos.
  destruct (entry_ok_page_end t Hok Hea) as [Htop|Hlow].
  - rewrite Htop. reflexivity.
  - unfold is_u64 in Hea.
    rewrite (wrap64_small (tlbe.ea t + tlbe.size t)) by lia.
    rewrite wrap64_small by lia. reflexivity.
Qed.

(** X7.  What the whole-store check keeps true.  In a reachable memory,
    for two used slots [i < j] with equal flags, where the page of slot [j]
    is not the last page of the address space: neither the first nor the
    last address of the page of slot [i] lies in the page of slot [j]; in
    particular the two pages do not start at the same address, and if they
    overlap at all, the page of slot [j] lies strictly inside the page of
    slot [i]. *)
Theorem later_page_misses_endpoints s (i j : nat) ti tj :
  reachable s ->
  (i < j)%nat -> Z.of_nat j < next (cache s) ->
  tlb (cache s) !! i = Some ti -> tlb (cache s) !! j = Some tj ->
  tlbe.flags ti = tlbe.flags tj ->
  tlbe.ea tj + tlbe.size tj < 2 ^ 64 ->
  ~ in_page (tlbe.ea ti) tj
  /\ ~ in_page (tlbe.ea ti + tlbe.size ti - 1) tj
  /\ tlbe.ea ti <> tlbe.ea tj
  /\ (overlap ti tj ->
      tlbe.ea ti < tlbe.ea tj
      /\ tlbe.ea tj + tlbe.size tj < tlbe.ea ti + tlbe.size ti).
Proof.
  intros Hr Hij Hj Hti Htj Hfl Hend.
  pose proof (reachable_inv _ Hr) as Hinv. pose proof (reachable_checked _ Hr) as Hck.
  destruct (inv_used _ Hinv _ _ Hti) as (Hci & Heai & _); [lia|].
  destruct (inv_used _ Hinv _ _ Htj) as (Hcj & Heaj & _); [lia|].
  apply entry_checks_ok in Hci, Hcj.
  assert (Hi' : 0 <= Z.of_nat i < next (cache s)) by lia.
  assert (Hti' : tlb (cache s) !! Z.to_nat (Z.of_nat i) = Some ti)
    by (rewrite Nat2Z.id; exact Hti).
  destruct (Hck (Z.of_nat i) Hi' ti Hti') as [H1 H2].
  rewrite (last_address ti Hci Heai) in H2.
  assert (Hm1 : matches (tlbe.ea ti) (tlbe.flags ti) tj = false).
  { apply (H1 (Z.of_nat j)); [lia|rewrite Nat2Z.id; exact Htj]. }
  assert (Hm2 : matches (tlbe.ea ti + tlbe.size ti - 1) (tlbe.flags ti) tj = false).
  { apply (H2 (Z.of_nat j)); [lia|rewrite Nat2Z.id; exact Htj]. }
  assert (Hn1 : ~ in_page (tlbe.ea ti) tj).
  { intros Hin. apply not_true_iff_false in Hm1. apply Hm1.
    apply matches_iff_in_page; auto. }
  assert (Hn2 : ~ in_page (tlbe.ea ti + tlbe.size ti - 1) tj).
  { intros Hin. apply not_true_iff_false in Hm2. apply Hm2.
    apply matches_iff_in_page; auto. }
  pose proof (entry_ok_size_pos _ Hcj) as Hsj.
  split; [exact Hn1|]. split; [exact Hn2|]. split.
  - intros Heq. apply Hn1. unfold in_page. rewrite Heq. lia.
  - unfold overlap, in_page in *. lia.
Qed.

(** ** [tlb_ra_set] followed by a lookup or by a second [tlb_ra_set] *)

(** The candidate matches the address it was built from, unless its page
    is the last one of the address space. *)
Lemma candidate_matches ea flags ra pagesize tnew0 :
  pagesize_ok pagesize -> 0 <= ea < 2 ^ 64 - pagesize ->
  matches ea flags (candidate ea flags ra pagesize tnew0) = true.
Proof.
  intros Hp Hea. apply matches_true. cbn [candidate tlbe.ea tlbe.size tlbe.flags].
  assert (Hpos : 0 < pagesize) by (destruct Hp as [->|[->| ->]]; lia).
  assert (Hu : is_u64 ea) by (unfold is_u64; lia).
  rewrite (pagesize_ok_mask _ Hp), (page_base _ _ Hp Hu).
  pose proof (Z.mod_pos_bound ea pagesize Hpos) as Hmod.
  set (m := ea mod pagesize) in *. clearbody m.
  rewrite wrap64_small by lia. repeat split; lia.
Qed.

Lemma no_match_insert_above c ea flags lo hi (i : nat) t tr nx nt ch :
  0 <= lo -> hi <= Z.of_nat i ->
  no_match c ea flags lo hi ->
  no_match (mk_cache (<[i := t]> (tlb c)) nx tr nt ch) ea flags lo hi.
Proof.
  intros Hlo Hi Hno j t' Hj Ht'. cbn [tlb] in Ht'.
  rewrite list_lookup_insert_ne in Ht' by lia. eapply Hno; eassumption.
Qed.

(** After a call of [tlb_ra_set] that returned, the first entry that
    matches [(ea, flags)] equals the candidate up to the counters. *)
Lemma set_installs ea flags ra pagesize tnew0 tnew1 s s' :
  cache_inv (cache s) -> 0 <= ea < 2 ^ 64 - pagesize ->
  tlb_ra_set ea flags ra pagesize tnew0 s = Ret tt s' ->
  exists i t,
    first_match (cache s') ea flags i t
    /\ tlb_equal (candidate ea flags ra pagesize tnew1) t = true.
Proof.
  intros Hinv Hea H.
  destruct (tlb_ra_set_Ret_inv _ _ _ _ _ _ _ Hinv H) as (Hp & Hf & _ & Hres).
  destruct (candidate_checks ea flags ra pagesize tnew0 Hp Hf) as (Hck & _ & _).
  pose proof (candidate_matches ea flags ra pagesize tnew0 Hp Hea) as Hm.
  pose proof (inv_next _ Hinv) as Hnext. pose proof (inv_length _ Hinv) as Hlen.
  destruct Hres as [i t (Hi & Ht & Hc & Hmt & Hno) Heq ->
                   |i t (Hi & Ht & Hc & Hmt & Hno) Heq ->
                   |Hno Hlt ->].
  - exists i, (repeated t). split; [|exact Heq].
    unfold first_match. cbn [next with_tlb tlb].
    split; [exact Hi|]. split.
    { apply list_lookup_insert_eq. eapply lookup_lt_Some. exact Ht. }
    split; [exact Hc|]. split; [exact Hmt|].
    apply (no_match_insert_above (cache s) ea flags 0 i (Z.to_nat i)); [lia|lia|exact Hno].
  - exists i, (candidate ea flags ra pagesize tnew0).
    split; [|apply tlb_equal_true; repeat split].
    unfold first_match. cbn [next tlb].
    split; [exact Hi|]. split.
    { apply list_lookup_insert_eq. eapply lookup_lt_Some. exact Ht. }
    split; [exact Hck|]. split; [exact Hm|].
    apply (no_match_insert_above (cache s) ea flags 0 i (Z.to_nat i)); [lia|lia|exact Hno].
  - exists (next (cache s)), (candidate ea flags ra pagesize tnew0).
    split; [|apply tlb_equal_true; repeat split].
    unfold first_match. cbn [next tlb].
    split; [lia|]. split.
    { apply list_lookup_insert_eq. rewrite Hlen. unfold TLB_SIZE in *. lia. }
    split; [exact Hck|]. split; [exact Hm|].
    apply (no_match_insert_above (cache s) ea flags 0 (next (cache s))
             (Z.to_nat (next (cache s)))); [lia|lia|exact Hno].
Qed.

(** The repeat path of [tlb_ra_set], forwards. *)
Lemma tlb_ra_set_repeat ea flags ra pagesize tnew0 s i t :
  cache_inv (cache s) ->
  first_match (cache s) ea flags i t ->
  tlb_equal (candidate ea flags ra pagesize tnew0) t = true ->
  exists s',
    tlb_ra_set ea flags ra pagesize tnew0 s = Ret tt s'
    /\ cache s' = with_tlb (cache s) (<[Z.to_nat i := repeated t]> (tlb (cache s)))
    /\ tlb_debug s' = 0.
Proof.
  intros Hr Hfirst Heq.
  destruct (tlb_get_index_found ea flags s i t Hr Hfirst) as (s3 & Hg & Hc3 & _).
  destruct Hfirst as (Hi & Ht & Hck & Hm & _).
  pose proof (inv_next _ Hr) as Hnext.
  assert (Hlen : (Z.to_nat i < length (tlb (cache s)))%nat)
    by (eapply lookup_lt_Some; exact Ht).
  assert (Hp : pagesize_ok pagesize /\ flags_ok flags).
  { apply tlb_equal_true in Heq. cbn in Heq. destruct Heq as (_ & _ & -> & -> & _).
    apply entry_checks_ok in Hck. destruct Hck as (_ & Hp & Hf & _). auto. }
  destruct Hp as [Hp Hf].
  exists (with_cache (mk_world (cache s3) 0 (stdout s3))
            (with_tlb (cache s) (<[Z.to_nat i := repeated t]> (tlb (cache s))))).
  split; [|split; reflexivity].
  unfold tlb_ra_set. rewrite tnew_candidate.
  unfold tlb_pagesize_validate, tlb_flags_validate.
  unfold bind at 1, assert at 1.
  replace ((pagesize =? 4096) || (pagesize =? 65536) || (pagesize =? 16777216))
    with true by (symmetry; unfold pagesize_ok in Hp; rewrite !orb_true_iff; lia).
  unfold bind at 1, assert at 1.
  replace (Z.land flags (not64 TLB_FLAGS_AVALIABLE) =? 0) with true
    by (unfold flags_ok in Hf; lia).
  unfold bind at 1, tlb_get_index. rewrite Hg.
  replace (i <? 0) with false by lia.
  unfold bind at 1, ret at 1. unfold bind at 1, put_debug at 1.
  unfold bind at 1.
  erewrite load_Ret;
    [|unfold TLB_SIZE in *; lia
     |cbn [cache]; rewrite Hc3; cbn; apply list_lookup_insert_eq; exact Hlen].
  rewrite tlb_equal_hit, Heq.
  erewrite store_Ret;
    [|unfold TLB_SIZE in *; lia
     |cbn [cache]; rewrite Hc3; cbn; apply list_lookup_insert_eq; exact Hlen].
  cbn [cache]. rewrite Hc3. unfold credited, with_tlb, with_cache, repeated. cbn.
  rewrite list_insert_insert_eq. reflexivity.
Qed.

(** X8.  What is set is found.  In a reachable memory, after
    [tlb_ra_set (ea, flags, ra, pagesize)] has returned, the lookup of
    [(ea, flags)] finds the page frame of [ra] with the page offset of [ea]
    and the page size [pagesize], provided [ea] does not lie on the last
    page of the address space. *)
Theorem set_then_lookup ea flags ra pagesize tnew0 s s1 :
  reachable s -> 0 <= ea < 2 ^ 64 - pagesize ->
  tlb_ra_set ea flags ra pagesize tnew0 s = Ret tt s1 ->
  exists s2,
    tlb_ra_get ea flags Obj Obj s1
    = Ret (Some (Z.lor (Z.land ea (pagesize - 1)) (Z.land ra (not64 (pagesize - 1))),
                 pagesize)) s2.
Proof.
  intros Hr Hea Hset. apply reachable_inv in Hr.
  pose proof (tlb_ra_set_inv _ _ _ _ _ _ _ Hr Hset) as Hinv1.
  destruct (tlb_ra_set_Ret_inv _ _ _ _ _ _ _ Hr Hset) as (Hp & _).
  destruct (set_installs ea flags ra pagesize tnew0 tnew0 s s1 Hr Hea Hset)
    as (i & t & Hfirst & Heq).
  destruct (tlb_ra_get_found ea flags s1 i t Hinv1 Hfirst) as (s2 & Hget & _).
  exists s2. rewrite Hget. f_equal. f_equal.
  apply tlb_equal_true in Heq. cbn in Heq. destruct Heq as (_ & Hra & Hsz & _).
  unfold translated, tlb_mask_rpn, tlb_mask_offset.
  rewrite <- Hra, <- Hsz, (pagesize_ok_mask _ Hp), <- Z.land_assoc, Z.land_diag.
  reflexivity.
Qed.

(** X9.  The same [tlb_ra_set] twice.  In a reachable memory, when
    [tlb_ra_set (ea, flags, ra, pagesize)] has returned and [ea] does not
    lie on the last page, the same call once more returns as a repeat: the
    entry found for [(ea, flags)] gets its hit and miss counters
    incremented and nothing else changes; in particular the
    translation-changes counter and the cursor stay. *)
Theorem set_twice_repeats ea flags ra pagesize tnew0 tnew1 s s1 :
  reachable s -> 0 <= ea < 2 ^ 64 - pagesize ->
  tlb_ra_set ea flags ra pagesize tnew0 s = Ret tt s1 ->
  exists s2 i t,
    tlb_ra_set ea flags ra pagesize tnew1 s1 = Ret tt s2
    /\ first_match (cache s1) ea flags i t
    /\ tlb (cache s2) = <[Z.to_nat i := repeated t]> (tlb (cache s1))
    /\ next (cache s2) = next (cache s1)
    /\ translation_changes (cache s2) = translation_changes (cache s1)
    /\ translations (cache s2) = translations (cache s1)
    /\ no_translation (cache s2) = no_translation (cache s1).
Proof.
  intros Hr Hea Hset. apply reachable_inv in Hr.
  pose proof (tlb_ra_set_inv _ _ _ _ _ _ _ Hr Hset) as Hinv1.
  destruct (set_installs ea flags ra pagesize tnew0 tnew1 s s1 Hr Hea Hset)
    as (i & t & Hfirst & Heq).
  destruct (tlb_ra_set_repeat ea flags ra pagesize tnew1 s1 i t Hinv1 Hfirst Heq)
    as (s2 & Hset2 & Hc2 & _).
  exists s2, i, t. split; [exact Hset2|]. split; [exact Hfirst|].
  rewrite Hc2. repeat split.
Qed.

(** X10.  The three outcomes of [tlb_ra_set].  In a reachable memory a
    call that returns had a permitted page size and permitted flags, has
    cleared [tlb_debug], and has done one of three things: repeated
    the entry found (its counters incremented), replaced the entry found by
    the candidate (translation-changes counter incremented), or appended
    the candidate at the cursor (cursor advanced by one).  The candidate
    carries the counters found in the storage of [tnew]. *)
Theorem set_outcomes ea flags ra pagesize tnew0 s s' :
  reachable s ->
  tlb_ra_set ea flags ra pagesize tnew0 s = Ret tt s' ->
  pagesize_ok pagesize /\ flags_ok flags /\ tlb_debug s' = 0
  /\ set_result ea flags ra pagesize tnew0 s s'.
Proof.
  intros Hr. apply tlb_ra_set_Ret_inv. apply reachable_inv. exact Hr.
Qed.

(** X11.  A lookup aborts only on a null out-pointer.  In a reachable
    memory [tlb_ra_get] called with a null [ra] or a null [pagesize] aborts
    at once, in the memory of the call and before anything is counted.
    Called with two non-null pointers it returns, no assertion fires: it
    increments the total-lookups counter and leaves the cursor, the
    translation-changes counter and the page and flags of every slot as
    they were; it returns "not found" exactly when no used slot matches. *)
Theorem lookup_returns ea flags ra pagesize s :
  reachable s ->
  (ra = NULL \/ pagesize = NULL -> tlb_ra_get ea flags ra pagesize s = Abort s)
  /\ (ra <> NULL -> pagesize <> NULL ->
      exists o s',
        tlb_ra_get ea flags ra pagesize s = Ret o s'
        /\ (o = None <-> no_match (cache s) ea flags 0 (next (cache s)))
        /\ translations (cache s') = int_incr (translations (cache s))
        /\ next (cache s') = next (cache s)
        /\ translation_changes (cache s') = translation_changes (cache s)
        /\ same_pages (tlb (cache s)) (tlb (cache s'))
        /\ tlb_debug s' = tlb_debug s).
Proof.
  intros Hr. split.
  { intros Hnull. unfold tlb_ra_get. unfold bind at 1, assert at 1.
    destruct ra; [reflexivity|]. cbn [non_null].
    unfold bind at 1, assert at 1.
    destruct pagesize; [reflexivity|]. destruct Hnull; discriminate. }
  intros Hra Hps.
  destruct ra; [contradiction|]. destruct pagesize; [contradiction|].
  apply reachable_inv in Hr. pose proof (inv_next _ Hr) as Hnext.
  destruct (tlb_get_index_total ea flags 0 s Hr) as (r & s0 & Hg); [lia|].
  pose proof (tlb_get_index_spec ea flags 0 s) as Hspec. rewrite Hg in Hspec.
  rewrite Z.max_r in Hspec by lia.
  destruct Hspec as [_ [(_ & _ & Hno)|(Hi & _ & t & Ht & Hck & Hm & _ & Hno)]].
  - destruct (tlb_ra_get_none ea flags s Hr Hno) as (s' & Hget & Hd & Hc).
    exists None, s'. split; [exact Hget|]. split; [tauto|]. rewrite Hc. cbn.
    repeat (split; [reflexivity|]). split; [apply same_pages_refl|exact Hd].
  - assert (Hfirst : first_match (cache s) ea flags r t)
      by (unfold first_match; auto).
    destruct (tlb_ra_get_found ea flags s r t Hr Hfirst) as (s' & Hget & Hd & Hc).
    eexists _, s'. split; [exact Hget|]. split.
    { split; [discriminate|]. intros Hnone.
      rewrite (Hnone r t) in Hm by (assumption || lia). discriminate. }
    rewrite Hc. cbn.
    repeat (split; [reflexivity|]). split; [|exact Hd].
    eapply same_pages_insert; [exact Ht|reflexivity..].
Qed.

(** ** Appending a fresh page *)

Lemma candidate_ea ea flags ra pagesize tnew0 :
  pagesize_ok pagesize -> is_u64 ea ->
  tlbe.ea (candidate ea flags ra pagesize tnew0) = ea - ea mod pagesize.
Proof.
  intros Hp Hu. cbn [candidate tlbe.ea].
  rewrite (pagesize_ok_mask _ Hp). apply page_base; assumption.
Qed.

(** The append path of [tlb_ra_set], forwards: nothing matches the probe,
    a slot is free, and the candidate matches neither end of a page already
    stored. *)
Lemma tlb_ra_set_append ea flags ra pagesize tnew0 s :
  cache_inv (cache s) -> checked (cache s) ->
  pagesize_ok pagesize -> flags_ok flags ->
  next (cache s) < TLB_SIZE ->
  no_match (cache s) ea flags 0 (next (cache s)) ->
  (forall (j : nat) (t : tlbe.t),
      tlb (cache s) !! j = Some t -> Z.of_nat j < next (cache s) ->
      matches (tlbe.ea t) (tlbe.flags t) (candidate ea flags ra pagesize tnew0) = false
      /\ matches (tlbe.ea t + tlbe.size t - 1) (tlbe.flags t)
                 (candidate ea flags ra pagesize tnew0) = false) ->
  exists s',
    tlb_ra_set ea flags ra pagesize tnew0 s = Ret tt s'
    /\ cache s' = mk_cache (<[Z.to_nat (next (cache s)) := candidate ea flags ra pagesize tnew0]>
                              (tlb (cache s)))
                           (next (cache s) + 1) (translations (cache s))
                           (no_translation (cache s)) (translation_changes (cache s))
    /\ tlb_debug s' = 0.
Proof.
  intros Hr Hck Hp Hf Hfree Hno Hcand.
  pose proof (inv_next _ Hr) as Hnext. pose proof (inv_length _ Hr) as Hlen.
  set (cand := candidate ea flags ra pagesize tnew0) in *.
  destruct (candidate_checks ea flags ra pagesize tnew0 Hp Hf) as (Hcc & Hcea & Hcra).
  fold cand in Hcc, Hcea, Hcra.
  set (c' := mk_cache (<[Z.to_nat (next (cache s)) := cand]> (tlb (cache s)))
                      (next (cache s) + 1) (translations (cache s))
                      (no_translation (cache s)) (translation_changes (cache s))).
  assert (Hinv' : cache_inv c') by (apply cache_inv_append; assumption).
  assert (Hck' : checked c').
  { intros j Hj t Ht. cbn [next c'] in Hj. cbn [tlb c'] in Ht.
    destruct (Z.eq_dec j (next (cache s))) as [->|Hne].
    - split; intros k tk Hk; cbn [next c'] in Hk; lia.
    - rewrite list_lookup_insert_ne in Ht by lia.
      assert (Hj' : 0 <= j < next (cache s)) by lia.
      destruct (Hck j Hj' t Ht) as [H1 H2].
      destruct (inv_used _ Hr _ _ Ht) as (Hok & Hea & _); [lia|].
      apply entry_checks_ok in Hok.
      destruct (Hcand (Z.to_nat j) t Ht) as [Hc1 Hc2]; [lia|].
      rewrite (last_address t Hok Hea) in *.
      split; intros k tk Hk Htk; cbn [next c'] in Hk; cbn [tlb c'] in Htk.
      + destruct (Z.eq_dec k (next (cache s))) as [->|Hnk].
        * rewrite list_lookup_insert_eq in Htk by (rewrite Hlen; unfold TLB_SIZE in *; lia).
          inversion Htk; subst tk. exact Hc1.
        * rewrite list_lookup_insert_ne in Htk by lia. apply (H1 k); [lia|exact Htk].
      + destruct (Z.eq_dec k (next (cache s))) as [->|Hnk].
        * rewrite list_lookup_insert_eq in Htk by (rewrite Hlen; unfold TLB_SIZE in *; lia).
          inversion Htk; subst tk. exact Hc2.
        * rewrite list_lookup_insert_ne in Htk by lia. apply (H2 k); [lia|exact Htk]. }
  destruct (tlb_get_index_none ea flags s Hr Hno) as (s3 & Hg & Hc3 & _).
  assert (Hlt : (Z.to_nat (next (cache s)) < length (tlb (cache s)))%nat)
    by (rewrite Hlen; unfold TLB_SIZE in *; lia).
  destruct (lookup_lt_is_Some_2 _ _ Hlt) as [t1 Ht1].
  assert (Hv1 : tlbe.valid t1 = false) by (apply (inv_free _ Hr _ _ Ht1); lia).
  assert (Hne : tlb_equal cand t1 = false).
  { destruct (tlb_equal cand t1) eqn:Heq; [|reflexivity].
    apply tlb_equal_true in Heq. destruct Heq as (_ & _ & _ & _ & Heq).
    rewrite Hv1 in Heq. discriminate. }
  set (s7 := mk_world c' 0 (stdout s3)).
  destruct (tlb_validate_total s7 Hinv' Hck') as (s' & Hval & Hc' & Hd').
  exists s'. split; [|split; [exact Hc'|exact Hd']].
  unfold tlb_ra_set. rewrite tnew_candidate. fold cand.
  unfold tlb_pagesize_validate, tlb_flags_validate.
  unfold bind at 1, assert at 1.
  replace ((pagesize =? 4096) || (pagesize =? 65536) || (pagesize =? 16777216))
    with true by (symmetry; unfold pagesize_ok in Hp; rewrite !orb_true_iff; lia).
  unfold bind at 1, assert at 1.
  replace (Z.land flags (not64 TLB_FLAGS_AVALIABLE) =? 0) with true
    by (unfold flags_ok in Hf; lia).
  unfold bind at 1, tlb_get_index. rewrite Hg.
  change (-1 <? 0) with true. cbv beta iota.
  unfold bind at 1. unfold bind at 1, get_cache at 1.
  unfold bind at 1, put_cache at 1. unfold bind at 1, get_cache at 1.
  unfold bind at 1, assert at 1. cbn [cache with_cache next with_next].
  rewrite Hc3, int_incr_succ by (unfold INT_MIN, INT_MAX, TLB_SIZE in *; lia).
  replace (next (cache s) + 1 <=? TLB_SIZE) with true by lia.
  unfold ret at 1. unfold bind at 1, put_debug at 1.
  erewrite bind_Ret; [|apply load_Ret; [lia|cbn; exact Ht1]].
  rewrite Hne, Hv1.
  unfold bind at 1, ret at 1.
  erewrite bind_Ret; [|eapply store_Ret; [lia|cbn; exact Ht1]].
  exact Hval.
Qed.

(** X12.  A fresh page is appended.  In a reachable memory with a free
    slot, [tlb_ra_set] with a permitted page size and permitted flags
    returns and appends the candidate at the cursor, when the page of the
    candidate overlaps the page of no valid entry with the same flags. *)
Theorem set_fresh_page_appends ea flags ra pagesize tnew0 s :
  reachable s ->
  pagesize_ok pagesize -> flags_ok flags -> is_u64 ea ->
  next (cache s) < TLB_SIZE ->
  (forall (i : nat) (t : tlbe.t),
      tlb (cache s) !! i = Some t -> tlbe.valid t = true -> tlbe.flags t = flags ->
      ~ overlap (candidate ea flags ra pagesize tnew0) t) ->
  exists s',
    tlb_ra_set ea flags ra pagesize tnew0 s = Ret tt s'
    /\ cache s' = mk_cache (<[Z.to_nat (next (cache s)) := candidate ea flags ra pagesize tnew0]>
                              (tlb (cache s)))
                           (next (cache s) + 1) (translations (cache s))
                           (no_translation (cache s)) (translation_changes (cache s))
    /\ tlb_debug s' = 0.
Proof.
  intros Hr Hp Hf Hu Hfree Hfresh.
  pose proof (reachable_checked _ Hr) as Hck. apply reachable_inv in Hr.
  destruct (candidate_checks ea flags ra pagesize tnew0 Hp Hf) as (_ & Hcea & _).
  pose proof (candidate_ea ea flags ra pagesize tnew0 Hp Hu) as Hbase.
  assert (Hpos : 0 < pagesize) by (destruct Hp as [->|[->| ->]]; lia).
  pose proof (Z.mod_pos_bound ea pagesize Hpos) as Hmod.
  set (cand := candidate ea flags ra pagesize tnew0) in *.
  assert (Hsz : tlbe.size cand = pagesize) by reflexivity.
  assert (Hfl : tlbe.flags cand = flags) by reflexivity.
  set (m := ea mod pagesize) in *. clearbody m.
  assert (Hused : forall (j : nat) t, tlb (cache s) !! j = Some t -> Z.of_nat j < next (cache s) ->
                    entry_ok t /\ is_u64 (tlbe.ea t) /\ 0 < tlbe.size t).
  { intros j t Ht Hj. destruct (inv_used _ Hr _ _ Ht Hj) as (Hc & Hea & _).
    apply entry_checks_ok in Hc. pose proof (entry_ok_size_pos _ Hc). auto. }
  apply tlb_ra_set_append; try assumption.
  - intros j t Hj Ht. destruct (Hused _ _ Ht) as (Hok & Hea & Hsp); [lia|].
    destruct (matches ea flags t) eqn:Hm; [|reflexivity]. exfalso.
    apply matches_in_page in Hm; [|unfold is_u64 in Hea; lia].
    destruct Hm as [[Hlo Hhi] Hflags].
    apply (Hfresh _ _ Ht); [apply Hok|congruence|].
    unfold overlap. rewrite Hbase, Hsz. clearbody cand. lia.
  - assert (Hin : forall (j : nat) t a,
               tlb (cache s) !! j = Some t -> Z.of_nat j < next (cache s) ->
               tlbe.ea t <= a < tlbe.ea t + tlbe.size t ->
               matches a (tlbe.flags t) cand = false).
    { intros j t a Ht Hj Ha. destruct (Hused _ _ Ht Hj) as (Hok & Hea & Hsp).
      destruct (matches a (tlbe.flags t) cand) eqn:Hm; [|reflexivity]. exfalso.
      apply matches_in_page in Hm; [|unfold is_u64 in Hcea; rewrite Hsz; lia].
      destruct Hm as [[Hlo Hhi] Hflags].
      apply (Hfresh _ _ Ht); [apply Hok|rewrite Hflags; exact Hfl|].
      unfold overlap. lia. }
    intros j t Ht Hj. destruct (Hused _ _ Ht Hj) as (_ & _ & Hsp).
    split; apply (Hin j t); auto; lia.
Qed.

(** X14.  The last page is appended again and again.  In a reachable
    memory with a free slot, [tlb_ra_set] for an address in the last 4 KiB
    of the address space, with a permitted page size and permitted flags,
    always returns and appends its candidate, also when an entry for the
    very same page is already stored: the stored entry matches nothing. *)
Theorem set_last_page_appends ea flags ra pagesize tnew0 s :
  reachable s ->
  pagesize_ok pagesize -> flags_ok flags ->
  2 ^ 64 - 4096 <= ea < 2 ^ 64 ->
  next (cache s) < TLB_SIZE ->
  exists s',
    tlb_ra_set ea flags ra pagesize tnew0 s = Ret tt s'
    /\ cache s' = mk_cache (<[Z.to_nat (next (cache s)) := candidate ea flags ra pagesize tnew0]>
                              (tlb (cache s)))
                           (next (cache s) + 1) (translations (cache s))
                           (no_translation (cache s)) (translation_changes (cache s))
    /\ tlb_debug s' = 0.
Proof.
  intros Hr Hp Hf Hea Hfree.
  pose proof (reachable_checked _ Hr) as Hck. apply reachable_inv in Hr.
  assert (Hu : is_u64 ea) by (unfold is_u64; lia).
  pose proof (candidate_ea ea flags ra pagesize tnew0 Hp Hu) as Hbase.
  assert (Htop : tlbe.ea (candidate ea flags ra pagesize tnew0)
                 + tlbe.size (candidate ea flags ra pagesize tnew0) = 2 ^ 64).
  { rewrite Hbase. cbn [candidate tlbe.size].
    destruct Hp as [->|[->| ->]].
    - rewrite <- (Z.mod_unique_pos ea 4096 (2 ^ 52 - 1) (ea - (2 ^ 64 - 4096))); lia.
    - rewrite <- (Z.mod_unique_pos ea 65536 (2 ^ 48 - 1) (ea - (2 ^ 64 - 65536))); lia.
    - rewrite <- (Z.mod_unique_pos ea 16777216 (2 ^ 40 - 1) (ea - (2 ^ 64 - 16777216))); lia. }
  apply tlb_ra_set_append; try assumption.
  - intros j t Hj Ht. destruct (inv_used _ Hr _ _ Ht) as (Hc & Heat & _); [lia|].
    apply matches_last_page; [apply entry_checks_ok; exact Hc|exact Heat|lia].
  - intros j t Ht Hj. destruct (inv_used _ Hr _ _ Ht Hj) as (Hc & Heat & _).
    apply entry_checks_ok in Hc. pose proof (entry_ok_size_pos _ Hc).
    unfold is_u64 in Heat.
    split; apply top_page_never_matches; try exact Htop; lia.
Qed.

(** ** What the verbosity flag prints *)

(** The lines a search prints for the slots [l] it probes. *)
Definition probe_lines (debug ea flags : Z) (l : list tlbe.t) : list event :=
  if debug >? 0 then map (EvMatch ea flags) l else [].

Lemma traced_stdout ea flags t s :
  stdout (traced ea flags t s) = stdout s ++ probe_lines (tlb_debug s) ea flags [t].
Proof.
  unfold traced, probe_lines. destruct (tlb_debug s >? 0); [reflexivity|].
  rewrite app_nil_r. reflexivity.
Qed.

Lemma probe_lines_cons debug ea flags t l :
  probe_lines debug ea flags [t] ++ probe_lines debug ea flags l
  = probe_lines debug ea flags (t :: l).
Proof. unfold probe_lines. destruct (debug >? 0); reflexivity. Qed.

(** A search that returns has probed [k] slots, one after the other from
    slot [i] on, and has printed them in that order. *)
Lemma tlb_get_index_loop_trace n : forall ea flags i s r s',
  0 <= i ->
  tlb_get_index_loop n ea flags i s = Ret r s' ->
  exists k : nat,
    (k <= n)%nat
    /\ (r = -1 -> k = n)
    /\ (r <> -1 -> r = i + Z.of_nat k - 1 /\ (0 < k)%nat)
    /\ stdout s' = stdout s ++ probe_lines (tlb_debug s) ea flags
                                  (take k (drop (Z.to_nat i) (tlb (cache s)))).
Proof.
  induction n as [|n IH]; intros ea flags i s r s' Hi H.
  - cbn in H. unfold ret in H. inversion H; subst. exists 0%nat.
    repeat split; try lia.
    unfold probe_lines. cbn. destruct (tlb_debug s' >? 0); rewrite app_nil_r; reflexivity.
  - cbn [tlb_get_index_loop] in H.
    apply bind_Ret_inv in H. destruct H as (t & s0 & Hl & H).
    apply load_Ret_inv in Hl. destruct Hl as (-> & Hb & Ht).
    unfold bind at 1 in H. rewrite tlb_match_eq in H.
    destruct (entry_checks t) eqn:Hc; [|discriminate].
    pose proof (drop_S _ _ _ Ht) as Hdrop.
    destruct (matches ea flags t) eqn:Hm.
    + unfold bind at 1 in H. rewrite tlb_entry_validate_eq, Hc in H.
      apply bind_Ret_inv in H. destruct H as (u & s1 & Hst & H).
      apply store_Ret_inv in Hst. destruct Hst as (_ & _ & ->).
      unfold ret in H. inversion H; subst r s'; clear H.
      exists 1%nat. split; [lia|]. split; [lia|]. split; [lia|].
      cbn [stdout with_cache]. rewrite traced_stdout, Hdrop. reflexivity.
    + destruct (IH ea flags (i + 1) (traced ea flags t s) r s') as (k & Hk & H1 & H2 & H3);
        [lia|exact H|].
      exists (S k). split; [lia|]. split; [lia|]. split; [lia|].
      rewrite H3, traced_stdout, traced_debug, traced_cache, <- app_assoc, probe_lines_cons.
      rewrite Hdrop. replace (Z.to_nat (i + 1)) with (S (Z.to_nat i)) by lia.
      reflexivity.
Qed.




(** X13.  The output of a lookup.  A lookup that returns has probed the
    first [k] slots of the store in order, [k] being the cursor when
    nothing is found and one more than the slot found otherwise.  With
    [tlb_debug] positive it has printed one line for each of them, with the
    probed address, the flags and the entry as it was before the call; with
    [tlb_debug] zero or negative it has printed nothing. *)
Theorem lookup_trace ea flags s o s' :
  tlb_ra_get ea flags Obj Obj s = Ret o s' ->
  exists k : nat,
    (k <= Z.to_nat (next (cache s)))%nat
    /\ (o = None -> k = Z.to_nat (next (cache s)))
    /\ (o <> None -> exists t, tlb (cache s) !! Nat.pred k = Some t
                               /\ matches ea flags t = true /\ (0 < k)%nat)
    /\ (0 < tlb_debug s ->
        stdout s' = stdout s ++ map (EvMatch ea flags) (take k (tlb (cache s))))
    /\ (tlb_debug s <= 0 -> stdout s' = stdout s).
Proof.
  intros H. unfold tlb_ra_get in H. cbn [non_null] in H.
  unfold bind at 1, assert at 1 in H. unfold bind at 1, assert at 1 in H.
  unfold bind at 1, get_cache at 1 in H. unfold bind at 1, put_cache at 1 in H.
  apply bind_Ret_inv in H. destruct H as (r & s2 & Hg & H).
  set (s1 := with_cache s (with_translations (cache s) (int_incr (translations (cache s)))))
    in *.
  pose proof (tlb_get_index_spec ea flags 0 s1) as Hspec.
  unfold tlb_get_index in Hg. rewrite Hg in Hspec.
  unfold __tlb_get_index in Hg. unfold bind at 1, get_cache at 1 in Hg.
  apply tlb_get_index_loop_trace in Hg; [|lia].
  destruct Hg as (k & Hk & H1 & H2 & H3).
  cbn [cache s1 with_cache next with_translations tlb tlb_debug stdout] in Hk, H1, H3.
  rewrite Z.sub_0_r in Hk, H1. cbn [Z.to_nat drop] in H3.
  assert (Hout : stdout s' = stdout s2 /\ (o = None <-> r = -1)
                 /\ (o <> None -> exists t, tlb (cache s) !! Z.to_nat r = Some t
                                           /\ matches ea flags t = true)).
  { destruct Hspec as [_ [(-> & _ & _)|(Hr & _ & t & Ht & _ & Hm & _)]].
    - change (-1 <? 0) with true in H.
      unfold bind, get_cache, put_cache, ret in H. inversion H; subst.
      repeat split; auto. intros Hne. congruence.
    - replace (r <? 0) with false in H by lia.
      apply bind_Ret_inv in H. destruct H as (t1 & s3 & Hl & H).
      apply load_Ret_inv in Hl. destruct Hl as (-> & _ & _).
      unfold bind at 1 in H. rewrite tlb_translate_eq in H.
      destruct (_ && _) in H; [|discriminate].
      unfold ret in H. inversion H; subst.
      split; [reflexivity|]. split; [split; [discriminate|lia]|].
      intros _. exists t. auto. }
  destruct Hout as (Hs' & Hnone & Hsome).
  exists k. split; [exact Hk|]. split; [intros Ho; apply H1, Hnone, Ho|].
  split.
  - intros Ho. destruct (Hsome Ho) as (t & Ht & Hm).
    assert (Hr : r <> -1) by (intros Hr; apply Ho, Hnone, Hr).
    destruct (H2 Hr) as [Hrk Hpos].
    exists t. replace (Nat.pred k) with (Z.to_nat r) by lia. auto.
  - rewrite Hs', H3. unfold probe_lines. split; intros Hd.
    + replace (tlb_debug s >? 0) with true by lia. reflexivity.
    + replace (tlb_debug s >? 0) with false by lia. apply app_nil_r.
Qed.

End Tlb.

(** ** The theorems at concrete memories

    The constant of tlb.h is instantiated with a single bit. *)

Definition reloc_bit : Z := 1.

(** The memory after [init] and [set (0x1000, 0, 0x2000, 4096)], the
    storage of [tnew] holding zeros. *)
Definition one_page : world :=
  mk_world (mk_cache (<[0%nat := tlbe.mk 0x1000 0x2000 4096 0 0 0 true]> (tlb zero_cache))
                     1 0 0 0) 0 [].

Lemma one_page_reachable : reachable reloc_bit one_page.
Proof.
  apply (run_reachable reloc_bit
           [CallInit; CallSet 0x1000 0 0x2000 4096 tlbe.zero] startup one_page).
  - apply reachable_startup.
  - vm_compute. reflexivity.
Qed.

(** A full store: one 4 KiB page in each of the 256 slots. *)
Definition full_store : world :=
  mk_world (mk_cache (map (fun k => tlbe.mk (4096 * Z.of_nat k) 0 4096 0 0 0 true) (seq 0 256))
                     256 0 0 0) 0 [].

Lemma lookup_forallb {A} (p : A -> bool) (l : list A) :
  forallb p l = true -> forall (i : nat) (x : A), l !! i = Some x -> p x = true.
Proof.
  intros H i x Hx. rewrite forallb_forall in H. apply H.
  apply list_elem_of_In. eapply list_elem_of_lookup_2. exact Hx.
Qed.

Lemma valid_prefix_witness :
  length (tlb (cache one_page)) = 256%nat /\ 0 <= next (cache one_page) <= 256 /\
  forall (i : nat) (t : tlbe.t), tlb (cache one_page) !! i = Some t ->
    (Z.of_nat i < next (cache one_page) -> tlbe.valid t = true) /\
    (next (cache one_page) <= Z.of_nat i -> tlbe.valid t = false).
Proof. exact (valid_prefix reloc_bit one_page one_page_reachable). Defined.

Lemma valid_entries_aligned_witness :
  pagesize_ok 4096 /\ aligned 0x1000 4096 /\ aligned 0x2000 4096.
Proof.
  exact (valid_entries_aligned reloc_bit one_page one_page_reachable 0%nat
           (tlbe.mk 0x1000 0x2000 4096 0 0 0 true) eq_refl eq_refl).
Defined.



Lemma set_repeat_counts_witness :
  exists s' t',
    tlb_ra_set reloc_bit 0x1000 0 0x2000 4096 tlbe.zero one_page = Ret tt s'
    /\ tlb (cache s') !! 0%nat = Some t'
    /\ tlbe.miss_count t' = 1 /\ tlbe.hit_count t' = 1
    /\ tlbe.ea t' = 0x1000 /\ tlbe.ra t' = 0x2000
    /\ tlbe.size t' = 4096 /\ tlbe.flags t' = 0 /\ tlbe.valid t' = true
    /\ (forall j : nat, j <> 0%nat -> tlb (cache s') !! j = tlb (cache one_page) !! j)
    /\ translation_changes (cache s') = 0
    /\ translations (cache s') = 0
    /\ no_translation (cache s') = 0
    /\ next (cache s') = 1.
Proof.
  refine (set_repeat_counts reloc_bit 0x1000 0 0x2000 4096 tlbe.zero one_page 0
            (tlbe.mk 0x1000 0x2000 4096 0 0 0 true) one_page_reachable _ _).
  - unfold first_match. split; [cbn; lia|]. split; [reflexivity|].
    split; [reflexivity|]. split; [reflexivity|]. intros j t Hj. lia.
  - reflexivity.
Defined.

Lemma lookup_miss_witness :
  exists s',
    tlb_ra_get reloc_bit 0x5000 0 Obj Obj one_page = Ret None s'
    /\ translations (cache s') = 1
    /\ no_translation (cache s') = 1
    /\ tlb (cache s') = tlb (cache one_page)
    /\ next (cache s') = 1
    /\ translation_changes (cache s') = 0.
Proof.
  refine (lookup_miss reloc_bit 0x5000 0 one_page one_page_reachable _).
  intros i t Ht Hv [_ Hin].
  assert (Hp : (negb (tlbe.valid t) || (0x5000 >=? tlbe.ea t + tlbe.size t)) = true).
  { clear Hv Hin. revert i t Ht.
    apply (lookup_forallb
             (fun t => negb (tlbe.valid t) || (0x5000 >=? tlbe.ea t + tlbe.size t))).
    vm_compute. reflexivity. }
  rewrite Hv in Hp. unfold in_page in Hin. cbn [negb orb] in Hp. lia.
Defined.

Lemma full_store_inv : cache_inv reloc_bit (cache full_store).
Proof.
  assert (Hlen : length (tlb (cache full_store)) = 256%nat) by (vm_compute; reflexivity).
  constructor.
  - exact Hlen.
  - cbn. unfold TLB_SIZE. lia.
  - intros i t Ht _.
    assert (Hp : (entry_checks reloc_bit t
                  && ((0 <=? tlbe.ea t) && (tlbe.ea t <? 2 ^ 64))
                  && ((0 <=? tlbe.ra t) && (tlbe.ra t <? 2 ^ 64))) = true).
    { revert i t Ht.
      apply (lookup_forallb
               (fun t => entry_checks reloc_bit t
                         && ((0 <=? tlbe.ea t) && (tlbe.ea t <? 2 ^ 64))
                         && ((0 <=? tlbe.ra t) && (tlbe.ra t <? 2 ^ 64)))).
      vm_compute. reflexivity. }
    rewrite !andb_true_iff in Hp. unfold is_u64. intuition lia.
  - intros i t Ht Hge. apply lookup_lt_Some in Ht. rewrite Hlen in Ht.
    cbn in Hge. lia.
Qed.

Lemma set_full_aborts_witness :
  exists s',
    tlb_ra_set reloc_bit 0x200000 0 0 4096 tlbe.zero full_store = Abort s'
    /\ tlb (cache s') = tlb (cache full_store).
Proof.
  refine (set_full_aborts reloc_bit 0x200000 0 0 4096 tlbe.zero full_store
            full_store_inv _ _).
  - apply (lookup_forallb tlbe.valid). vm_compute. reflexivity.
  - intros i t Ht. apply negb_true_iff. revert i t Ht.
    apply (lookup_forallb (fun t => negb (matches 0x200000 0 t))).
    vm_compute. reflexivity.
Defined.

(** Verbosity is switched on, then [set] is called: the call returns with
    verbosity off. *)
Lemma set_clears_debug_witness :
  tlb_debug (mk_world zero_cache 1 []) = 1
  /\ tlb_ra_set reloc_bit 0x1000 0 0x2000 4096 tlbe.zero (mk_world zero_cache 1 [])
     = Ret tt one_page
  /\ tlb_debug one_page = 0.
Proof.
  assert (Hrun : tlb_ra_set reloc_bit 0x1000 0 0x2000 4096 tlbe.zero
                   (mk_world zero_cache 1 []) = Ret tt one_page)
    by (vm_compute; reflexivity).
  split; [reflexivity|]. split; [exact Hrun|].
  exact (proj1 (set_clears_debug reloc_bit 0x1000 0 0x2000 4096 tlbe.zero
                  (mk_world zero_cache 1 []) one_page Hrun)).
Defined.

(** ** The further theorems at concrete memories *)

Definition the_page : tlbe.t := tlbe.mk 0x1000 0x2000 4096 0 0 0 true.

Lemma one_page_first_match a :
  0x1000 <= a < 0x2000 -> first_match reloc_bit (cache one_page) a 0 0 the_page.
Proof.
  intros Ha. unfold first_match. split; [cbn; lia|]. split; [reflexivity|].
  split; [reflexivity|]. split.
  - apply matches_true.
    change (wrap64 (tlbe.ea the_page + tlbe.size the_page)) with 0x2000.
    cbn [tlbe.ea tlbe.flags the_page]. lia.
  - intros j t Hj. lia.
Qed.

Lemma startup_set_one_page :
  tlb_ra_set reloc_bit 0x1000 0 0x2000 4096 tlbe.zero startup = Ret tt one_page.
Proof. vm_compute. reflexivity. Qed.

(** The memory after [init], [set (0x1000, 0, 0x2000, 4096)] and
    [set (0x2000, 0, 0x3000, 4096)]. *)
Definition two_pages : world :=
  mk_world (mk_cache (<[1%nat := tlbe.mk 0x2000 0x3000 4096 0 0 0 true]>
                        (<[0%nat := the_page]> (tlb zero_cache)))
                     2 0 0 0) 0 [].

Lemma two_pages_reachable : reachable reloc_bit two_pages.
Proof.
  apply (run_reachable reloc_bit
           [CallInit; CallSet 0x1000 0 0x2000 4096 tlbe.zero;
            CallSet 0x2000 0 0x3000 4096 tlbe.zero] startup two_pages).
  - apply reachable_startup.
  - vm_compute. reflexivity.
Qed.

Lemma lookup_hit_witness :
  exists s' t',
    tlb_ra_get reloc_bit 0x1005 0 Obj Obj one_page = Ret (Some (0x2005, 4096)) s'
    /\ tlb (cache s') !! 0%nat = Some t'
    /\ tlbe.hit_count t' = 1
    /\ translations (cache s') = 1.
Proof.
  destruct (lookup_hit reloc_bit 0x1005 0 one_page 0 the_page one_page_reachable)
    as (s' & t' & H1 & H2 & H3 & H4);
    [apply one_page_first_match; lia|].
  exists s', t'. split; [exact H1|]. split; [exact H2|]. split; [exact H3|].
  apply H4.
Defined.

Lemma lookup_last_page_misses_witness :
  exists s',
    tlb_ra_get reloc_bit (2 ^ 64 - 1) 0 Obj Obj one_page = Ret None s'
    /\ no_translation (cache s') = 1
    /\ tlb (cache s') = tlb (cache one_page).
Proof.
  apply (lookup_last_page_misses reloc_bit (2 ^ 64 - 1) 0 one_page one_page_reachable).
  lia.
Defined.

Lemma lookup_bad_flags_misses_witness :
  exists s',
    tlb_ra_get reloc_bit 0x1005 2 Obj Obj one_page = Ret None s'
    /\ no_translation (cache s') = 1
    /\ tlb (cache s') = tlb (cache one_page).
Proof.
  apply (lookup_bad_flags_misses reloc_bit 0x1005 2 one_page one_page_reachable).
  unfold flags_ok. vm_compute. discriminate.
Defined.

Lemma set_rejects_bad_arguments_witness :
  tlb_ra_set reloc_bit 0x1000 0 0x2000 8192 tlbe.zero one_page = Abort one_page.
Proof.
  apply (set_rejects_bad_arguments reloc_bit 0x1000 0 0x2000 8192 tlbe.zero one_page).
  left. unfold pagesize_ok. lia.
Defined.

Lemma exit_returns_witness :
  exists s', tlb_exit reloc_bit one_page = Ret tt s'
             /\ cache s' = cache one_page /\ tlb_debug s' = tlb_debug one_page.
Proof. exact (exit_returns reloc_bit one_page one_page_reachable). Defined.

Lemma later_page_misses_endpoints_witness :
  ~ in_page 0x1000 (tlbe.mk 0x2000 0x3000 4096 0 0 0 true)
  /\ ~ in_page 0x1fff (tlbe.mk 0x2000 0x3000 4096 0 0 0 true)
  /\ 0x1000 <> 0x2000.
Proof.
  destruct (later_page_misses_endpoints reloc_bit two_pages 0 1 the_page
              (tlbe.mk 0x2000 0x3000 4096 0 0 0 true) two_pages_reachable)
    as (H1 & H2 & H3 & _); try reflexivity; try (cbn; lia).
  auto.
Defined.

Lemma set_then_lookup_witness :
  exists s2, tlb_ra_get reloc_bit 0x1005 0 Obj Obj one_page = Ret (Some (0x2005, 4096)) s2.
Proof.
  apply (set_then_lookup reloc_bit 0x1005 0 0x2000 4096 tlbe.zero startup one_page).
  - apply reachable_startup.
  - lia.
  - vm_compute. reflexivity.
Defined.

Lemma set_twice_repeats_witness :
  exists s2 i t,
    tlb_ra_set reloc_bit 0x1000 0 0x2000 4096 tlbe.zero one_page = Ret tt s2
    /\ first_match reloc_bit (cache one_page) 0x1000 0 i t
    /\ tlb (cache s2) = <[Z.to_nat i := repeated t]> (tlb (cache one_page))
    /\ next (cache s2) = 1
    /\ translation_changes (cache s2) = 0.
Proof.
  destruct (set_twice_repeats reloc_bit 0x1000 0 0x2000 4096 tlbe.zero tlbe.zero
              startup one_page (reachable_startup reloc_bit))
    as (s2 & i & t & H1 & H2 & H3 & H4 & H5 & _);
    [lia|exact startup_set_one_page|].
  exists s2, i, t. auto.
Defined.

Lemma set_outcomes_witness :
  pagesize_ok 4096 /\ flags_ok reloc_bit 0 /\ tlb_debug one_page = 0
  /\ set_result reloc_bit 0x1000 0 0x2000 4096 tlbe.zero startup one_page.
Proof.
  exact (set_outcomes reloc_bit 0x1000 0 0x2000 4096 tlbe.zero startup one_page
           (reachable_startup reloc_bit) startup_set_one_page).
Defined.

Lemma lookup_returns_witness :
  tlb_ra_get reloc_bit 0x1005 0 NULL Obj one_page = Abort one_page
  /\ exists o s',
       tlb_ra_get reloc_bit 0x1005 0 Obj Obj one_page = Ret o s'
       /\ (o = None <-> no_match (cache one_page) 0x1005 0 0 (next (cache one_page)))
       /\ translations (cache s') = 1.
Proof.
  split.
  - apply (lookup_returns reloc_bit 0x1005 0 NULL Obj one_page one_page_reachable).
    left. reflexivity.
  - destruct (lookup_returns reloc_bit 0x1005 0 Obj Obj one_page one_page_reachable)
      as [_ Hret].
    destruct Hret as (o & s' & H1 & H2 & H3 & _); [discriminate|discriminate|].
    exists o, s'. auto.
Defined.

Lemma translate_in_page_witness :
  tlb_translate reloc_bit 0x1005 0 the_page startup = Ret 0x2005 startup
  /\ 0x2005 = 0x2000 + (0x1005 - 0x1000).
Proof.
  apply (translate_in_page reloc_bit 0x1005 0 the_page startup).
  - repeat split; try reflexivity. left. reflexivity.
  - unfold is_u64. cbn. lia.
  - unfold is_u64. cbn. lia.
  - reflexivity.
  - cbn. lia.
  - unfold in_page. cbn. lia.
Defined.

Lemma set_fresh_page_appends_witness :
  exists s',
    tlb_ra_set reloc_bit 0x5000 0 0x7000 4096 tlbe.zero one_page = Ret tt s'
    /\ next (cache s') = 2
    /\ tlb (cache s') !! 1%nat = Some (tlbe.mk 0x5000 0x7000 4096 0 0 0 true).
Proof.
  destruct (set_fresh_page_appends reloc_bit 0x5000 0 0x7000 4096 tlbe.zero one_page
              one_page_reachable) as (s' & H1 & H2 & _).
  - left. reflexivity.
  - reflexivity.
  - unfold is_u64. lia.
  - cbn. unfold TLB_SIZE. lia.
  - intros i t Ht Hv _ [Ho1 Ho2].
    assert (Hp : (negb (tlbe.valid t) || (0x6000 <=? tlbe.ea t)
                  || (tlbe.ea t + tlbe.size t <=? 0x5000)) = true).
    { clear Hv Ho1 Ho2. revert i t Ht.
      apply (lookup_forallb
               (fun t => negb (tlbe.valid t) || (0x6000 <=? tlbe.ea t)
                         || (tlbe.ea t + tlbe.size t <=? 0x5000))).
      vm_compute. reflexivity. }
    assert (E1 : tlbe.ea (candidate 0x5000 0 0x7000 4096 tlbe.zero) = 0x5000)
      by (vm_compute; reflexivity).
    assert (E2 : tlbe.size (candidate 0x5000 0 0x7000 4096 tlbe.zero) = 4096)
      by reflexivity.
    rewrite E1 in Ho1. rewrite E1, E2 in Ho2.
    rewrite Hv in Hp. cbn [negb orb] in Hp. rewrite orb_true_iff in Hp. lia.
  - exists s'. split; [exact H1|]. rewrite H2. split; reflexivity.
Defined.

(** The memory [one_page] with verbosity switched on. *)
Definition one_page_verbose : world := mk_world (cache one_page) 1 [].

Lemma lookup_trace_witness :
  exists k : nat,
    (k <= 1)%nat
    /\ (0 < tlb_debug one_page_verbose ->
        stdout (mk_world (mk_cache (<[0%nat := tlbe.set_hit_count the_page 1]>
                                      (tlb (cache one_page))) 1 1 0 0) 1
                         [EvMatch 0x1005 0 the_page])
        = stdout one_page_verbose
          ++ map (EvMatch 0x1005 0) (take k (tlb (cache one_page_verbose)))).
Proof.
  destruct (lookup_trace reloc_bit 0x1005 0 one_page_verbose (Some (0x2005, 4096))
              (mk_world (mk_cache (<[0%nat := tlbe.set_hit_count the_page 1]>
                                     (tlb (cache one_page))) 1 1 0 0) 1
                        [EvMatch 0x1005 0 the_page]))
    as (k & H1 & _ & _ & H4 & _).
  - vm_compute. reflexivity.
  - exists k. split; [exact H1|exact H4].
Defined.

Lemma set_last_page_appends_witness :
  exists s',
    tlb_ra_set reloc_bit (2 ^ 64 - 1) 0 0x7000 4096 tlbe.zero one_page = Ret tt s'
    /\ next (cache s') = 2
    /\ tlb_debug s' = 0.
Proof.
  destruct (set_last_page_appends reloc_bit (2 ^ 64 - 1) 0 0x7000 4096 tlbe.zero one_page
              one_page_reachable) as (s' & H1 & H2 & H3).
  - left. reflexivity.
  - reflexivity.
  - lia.
  - cbn. unfold TLB_SIZE. lia.
  - exists s'. split; [exact H1|]. rewrite H2. split; [reflexivity|exact H3].
Defined.

